(** * lamb: partial application, partition and the deep freezer

    A shallow embedding of the parts of the lamb library that its
    specification singles out: [partial] (src/array.js), [partition]
    (src/array.js) and [_immutable] / [immutable] (src/object.js).

    JavaScript values are modelled by the inductive [value]; numbers are
    integers (none of the modelled code does arithmetic on them), objects
    and functions live in a heap and are referred to by address. *)

From stdpp Require Import gmap strings list fin_maps pretty relations.
From Stdlib Require Import ZArith.

(** ** Values *)

Definition loc := nat.

Inductive value : Type :=
  | VUndefined
  | VNull
  | VBool (b : bool)
  | VNum (n : Z)
  | VStr (s : string)
  | VRef (l : loc).

#[global] Instance value_eq_dec : EqDecision value.
Proof. solve_decision. Defined.

#[global] Instance value_inhabited : Inhabited value := populate VUndefined.

(** [var lamb = Object.create(null)]: the library object, allocated once
    when the module is loaded.  It is given the first address. *)
Definition lamb_loc : loc := 0.
Definition lamb : value := VRef lamb_loc.

(** [var _ = lamb;] "alias used as a placeholder argument for partial
    application" (array.js, line 943). *)
Definition placeholder : value := lamb.

(** [a === b] on the values of the model. *)
Definition strict_equals (a b : value) : bool := bool_decide (a = b).

(** ToBoolean, used wherever the source branches on a value. *)
Definition truthy (v : value) : bool :=
  match v with
  | VUndefined | VNull => false
  | VBool b => b
  | VNum n => negb (n =? 0)%Z
  | VStr s => negb (bool_decide (s = ""%string))
  | VRef _ => true
  end.

(** ** Arrays and [arguments] objects *)

(** [a[i]] as an r-value: reading past the end gives [undefined]. *)
Definition array_get (a : list value) (i : nat) : value :=
  default VUndefined (a !! i).

(** [a[i] = v]: inside the array the element is replaced; at or past the
    end the array grows, the skipped indices reading as [undefined]. *)
Definition array_set (a : list value) (i : nat) (v : value) : list value :=
  if decide (i < length a) then <[i := v]> a
  else a ++ replicate (i - length a) VUndefined ++ [v].

(** ** [partial] (array.js, lines 1071-1090) *)

Module Partial.

(** First loop:
    [for (var i = 0, boundArg; i < argsLen; i++) {
         boundArg = args[i];
         newArgs[i] = boundArg === _ ? arguments[lastIdx++] : boundArg;
     }]
    [n] counts the iterations that are left, [argsLen - i]. *)
Fixpoint fill_bound (n : nat) (args arguments : list value)
    (i lastIdx : nat) (newArgs : list value) : nat * nat * list value :=
  match n with
  | 0 => (i, lastIdx, newArgs)
  | S n' =>
      let boundArg := array_get args i in
      if strict_equals boundArg placeholder
      then fill_bound n' args arguments (S i) (S lastIdx)
             (array_set newArgs i (array_get arguments lastIdx))
      else fill_bound n' args arguments (S i) lastIdx
             (array_set newArgs i boundArg)
  end.

(** Second loop:
    [for (var len = arguments.length; lastIdx < len; lastIdx++) {
         newArgs[i++] = arguments[lastIdx];
     }]
    [n] counts the iterations that are left, [len - lastIdx] (none when
    [lastIdx] already passed [len]). *)
Fixpoint append_rest (n : nat) (arguments : list value)
    (i lastIdx : nat) (newArgs : list value) : list value :=
  match n with
  | 0 => newArgs
  | S n' =>
      append_rest n' arguments (S i) (S lastIdx)
        (array_set newArgs i (array_get arguments lastIdx))
  end.

(** The vector [newArgs] that the returned function hands to [fn]. *)
Definition newArgs_of (args arguments : list value) : list value :=
  let '(i, lastIdx, newArgs) :=
    fill_bound (length args) args arguments 0 0 [] in
  append_rest (length arguments - lastIdx) arguments i lastIdx newArgs.

(** [partial(fn, ...args)]: [args] is [_argsTail.apply(null, arguments)],
    that is everything after [fn].  A function is modelled by what it
    returns for a receiver and an argument vector; the closure returned
    by [partial] ends in [fn.apply(this, newArgs)]. *)
Definition partial {R : Type} (fn : value → list value → R)
    (args : list value) : value → list value → R :=
  λ this arguments, fn this (newArgs_of args arguments).

(** The vector in the words of the specification: scan the bound slots
    from the left, copy a concrete slot, replace a placeholder slot by
    the next runtime argument not yet consumed ([undefined] when none is
    left), and append what is left of the runtime arguments. *)
Fixpoint substitute (slots runtimeArgs : list value) : list value :=
  match slots with
  | [] => runtimeArgs
  | slot :: slots' =>
      if decide (slot = placeholder) then
        match runtimeArgs with
        | [] => VUndefined :: substitute slots' []
        | r :: rest => r :: substitute slots' rest
        end
      else slot :: substitute slots' runtimeArgs
  end.

(** Number of placeholder slots among [slots]. *)
Definition placeholders (slots : list value) : nat :=
  length (filter (λ s, s = placeholder) slots).

End Partial.

(** ** [partition] (array.js, lines 569-579) *)

Module Partition.

(** A callback [predicate.call(predicateContext, el, i, arrayLike)]:
    receiver first, then the three arguments. *)
Definition callback := value → value → nat → list value → value.

(** [result[c ? 0 : 1].push(el)] on [result = [[], []]]. *)
Definition push_to (result : list value * list value) (c : bool)
    (el : value) : list value * list value :=
  if c then (result.1 ++ [el], result.2) else (result.1, result.2 ++ [el]).

(** [for (var i = 0, el; i < len; i++) { ... }], [n] iterations left. *)
Fixpoint partition_loop (n : nat) (arrayLike : list value)
    (predicate : callback) (predicateContext : value) (i : nat)
    (result : list value * list value) : list value * list value :=
  match n with
  | 0 => result
  | S n' =>
      let el := array_get arrayLike i in
      partition_loop n' arrayLike predicate predicateContext (S i)
        (push_to result
           (truthy (predicate predicateContext el i arrayLike)) el)
  end.

Definition partition (arrayLike : list value) (predicate : callback)
    (predicateContext : value) : list value * list value :=
  let len := length arrayLike in
  partition_loop len arrayLike predicate predicateContext 0 ([], []).

(** The elements of [l] paired with their indices, counted from [k]. *)
Fixpoint entries_from (k : nat) (l : list value) : list (nat * value) :=
  match l with
  | [] => []
  | x :: l' => (k, x) :: entries_from (S k) l'
  end.

(** The elements of a stretch of [arrayLike] starting at index [k] on
    which the predicate answers [b], in their order. *)
Definition picked (predicate : callback) (predicateContext : value)
    (b : bool) (arrayLike : list value) (k : nat) (stretch : list value)
    : list value :=
  (filter
     (λ ie, truthy (predicate predicateContext ie.2 ie.1 arrayLike) = b)
     (entries_from k stretch)).*2.

(** The elements on which the predicate answers [b], in input order. *)
Definition selected (b : bool) (arrayLike : list value)
    (predicate : callback) (predicateContext : value) : list value :=
  picked predicate predicateContext b arrayLike 0 arrayLike.

End Partition.

(** ** Objects and the heap *)

(** A data property: its value and its [enumerable] attribute. *)
Record property : Type := Property {
  p_value : value;
  p_enumerable : bool
}.

(** An object: whether it is callable (then [typeof] answers
    ["function"]), its prototype, whether [Object.freeze] was applied to
    it, and its own properties in the order the engine lists them. *)
Record object : Type := Object {
  o_callable : bool;
  o_proto : option loc;
  o_frozen : bool;
  o_props : list (string * property)
}.

Inductive failure : Type :=
  | TypeError      (* thrown by the engine *)
  | Dangling       (* an address with no object behind it *)
  | OutOfFuel.     (* the recursion budget of the model ran out *)

Inductive result (A : Type) : Type :=
  | Ok (a : A)
  | Fail (f : failure).
Arguments Ok {A} a.
Arguments Fail {A} f.

#[global] Instance result_ret : MRet result := λ A a, Ok a.
#[global] Instance result_bind : MBind result := λ A B k m,
  match m with
  | Ok a => k a
  | Fail f => Fail f
  end.

(** First property stored under [key]. *)
Fixpoint assoc (key : string) (ps : list (string * property))
    : option property :=
  match ps with
  | [] => None
  | (k, p) :: ps' => if decide (k = key) then Some p else assoc key ps'
  end.

Module Freezer.

(** The characters of a string primitive, each a one-character string. *)
Fixpoint string_chars (s : string) : list value :=
  match s with
  | EmptyString => []
  | String c s' => VStr (String c EmptyString) :: string_chars s'
  end.

(** Own properties of the wrapper of a string primitive: one per index,
    then [length]. *)
Definition string_props (s : string) : list (string * property) :=
  imap (λ i c, (pretty i, Property c true)) (string_chars s)
  ++ [("length"%string, Property (VNum (Z.of_nat (String.length s))) false)].

(** Own properties of [ToObject(v)]; [undefined] and [null] cannot be
    converted and raise [TypeError]. *)
Definition own_props (h : gmap loc object) (v : value)
    : result (list (string * property)) :=
  match v with
  | VUndefined | VNull => Fail TypeError
  | VBool _ | VNum _ => Ok []
  | VStr s => Ok (string_props s)
  | VRef l =>
      match h !! l with
      | Some o => Ok (o_props o)
      | None => Fail Dangling
      end
  end.

(** [Object.getOwnPropertyNames(obj)]: every own string key, enumerable
    or not; nothing inherited. *)
Definition getOwnPropertyNames (h : gmap loc object) (obj : value)
    : result (list string) :=
  ps ← own_props h obj; Ok (ps.*1).

(** [obj[key]] for a key listed by [getOwnPropertyNames]: the lookup ends
    on the object itself, the prototype chain is not consulted. *)
Definition get (h : gmap loc object) (obj : value) (key : string) : value :=
  match own_props h obj with
  | Ok ps => from_option p_value VUndefined (assoc key ps)
  | Fail _ => VUndefined
  end.

(** [typeof v]. *)
Definition typeof (h : gmap loc object) (v : value) : result string :=
  match v with
  | VUndefined => Ok "undefined"%string
  | VNull => Ok "object"%string
  | VBool _ => Ok "boolean"%string
  | VNum _ => Ok "number"%string
  | VStr _ => Ok "string"%string
  | VRef l =>
      match h !! l with
      | Some o => Ok (if o_callable o then "function" else "object")%string
      | None => Fail Dangling
      end
  end.

(** Modelled from the spec: [isNull] is called by [_immutable] and is not
    among the source files; the recursion "only descends into values of
    object type that are not null", so it is the test [value === null]. *)
Definition isNull (v : value) : bool := strict_equals v VNull.

Definition freeze_object (o : object) : object :=
  Object (o_callable o) (o_proto o) true (o_props o).

(** [Object.freeze(v)]: marks an object frozen and returns it; a value
    that is not an object is returned as it is (ECMAScript 2015 and
    later; the heap is what changes, the returned value is [v]). *)
Definition Object_freeze (h : gmap loc object) (v : value)
    : result (gmap loc object) :=
  match v with
  | VRef l =>
      match h !! l with
      | Some o => Ok (<[l := freeze_object o]> h)
      | None => Fail Dangling
      end
  | _ => Ok h
  end.

(** [a.indexOf(x)], comparing with [===]. *)
Fixpoint indexOf_from (i : Z) (a : list value) (x : value) : Z :=
  match a with
  | [] => (-1)%Z
  | y :: a' => if strict_equals y x then i else indexOf_from (i + 1)%Z a' x
  end.
Definition indexOf (a : list value) (x : value) : Z := indexOf_from 0 a x.

(** [keys.forEach(f)] where [f] works on a state and may throw. *)
Fixpoint forEach {S : Type} (keys : list string)
    (f : string → S → result S) (st : S) : result S :=
  match keys with
  | [] => Ok st
  | key :: keys' => st' ← f key st; forEach keys' f st'
  end.

(** The state that [_immutable] works on: the heap and the array [seen],
    which every recursive call shares and pushes to. *)
Definition state : Type := gmap loc object * list value.

(** The callback of the [forEach] in [_immutable]:
    [var value = obj[key];
     if (typeof value === "object" && !isNull(value)) {
         _immutable(value, seen);
     }]
    [rec] is the recursive call. *)
Definition visit (rec : value → state → result state) (obj : value)
    (key : string) (st : state) : result state :=
  let value := get st.1 obj key in
  t ← typeof st.1 value;
  if bool_decide (t = "object"%string) && negb (isNull value)
  then rec value st
  else Ok st.

(** [_immutable(obj, seen)] (object.js, lines 2-16).  The recursion is
    not structural, so it runs on a budget of nested calls; the theorems
    show that one more than the number of objects in the heap is always
    enough.  The JavaScript function returns [obj]; the model returns the
    state it leaves behind. *)
Fixpoint _immutable (fuel : nat) (obj : value) (st : state) : result state :=
  match fuel with
  | 0 => Fail OutOfFuel
  | S fuel' =>
      if bool_decide (indexOf st.2 obj = (-1)%Z) then
        h1 ← Object_freeze st.1 obj;
        let seen1 := st.2 ++ [obj] in
        keys ← getOwnPropertyNames h1 obj;
        forEach keys (visit (_immutable fuel') obj) (h1, seen1)
      else Ok st
  end.

(** [immutable(obj)]: [return _immutable(obj, []);] gives back [obj]
    together with the heap after the traversal.  The budget is one more
    than the number of objects in the heap: every nested call is made on
    an object that is not in [seen] yet. *)
Definition immutable (h : gmap loc object) (obj : value)
    : result (value * gmap loc object) :=
  st ← _immutable (S (size h)) obj (h, []); Ok (obj, st.1).

(** [l'] is the value of an own property of [l] that satisfies [sel], and
    [typeof] answers ["object"] for it. *)
Definition edge_via (sel : property → bool) (h : gmap loc object)
    (l l' : loc) : Prop :=
  ∃ o key p, h !! l = Some o ∧ key ∈ (o_props o).*1 ∧
    assoc key (o_props o) = Some p ∧ sel p = true ∧
    p_value p = VRef l' ∧ typeof h (VRef l') = Ok "object"%string.

(** Through own properties, enumerable or not. *)
Definition edge : gmap loc object → loc → loc → Prop := edge_via (λ _, true).


Definition reachable (h : gmap loc object) : loc → loc → Prop := rtc (edge h).

(** A value that can be handed to the library: an address is allocated. *)
Definition value_ok (h : gmap loc object) (v : value) : Prop :=
  match v with
  | VRef l => is_Some (h !! l)
  | _ => True
  end.

#[global] Instance value_ok_dec (h : gmap loc object) (v : value) :
  Decision (value_ok h v).
Proof. destruct v; simpl; apply _. Defined.

(** Every address stored in a property has an object behind it. *)
Definition heap_closed (h : gmap loc object) : Prop :=
  map_Forall
    (λ _ o, Forall (λ kp, value_ok h (p_value kp.2)) (o_props o)) h.

Definition is_frozen (h : gmap loc object) (l : loc) : Prop :=
  o_frozen <$> h !! l = Some true.

(** [h'] is [h] after [Object.freeze] was applied to the values listed in
    [added], and to nothing else. *)
Definition froze (added : list value) (h h' : gmap loc object) : Prop :=
  ∀ l, h' !! l = if decide (VRef l ∈ added)
                 then freeze_object <$> h !! l else h !! l.

(** What a stretch of the traversal that started on heap [h] with the
    array [seen] leaves behind: the heap [h'] and the entries [added] it
    pushed.  Exactly the pushed values were frozen, each was pushed once
    and was not in [seen] before, and whatever an object pushed in this
    stretch points to is in [seen] by the end. *)
Definition traversed (h : gmap loc object) (seen : list value)
    (h' : gmap loc object) (added : list value) : Prop :=
  froze added h h' ∧ NoDup added ∧ (∀ u, u ∈ added → u ∉ seen) ∧
  (∀ l l', VRef l ∈ added → edge h l l' → VRef l' ∈ seen ++ added).

Definition ref_of (v : value) : option loc :=
  match v with
  | VRef l => Some l
  | _ => None
  end.

(** The addresses among the entries of [seen], and the objects of the
    heap that are not among them: the traversal's variant. *)
Definition seen_locs (seen : list value) : gset loc :=
  list_to_set (omap ref_of seen).
Definition unseen (h : gmap loc object) (seen : list value) : gset loc :=
  dom h ∖ seen_locs seen.

(** The contract of a call [_immutable(v, seen)] run with the budget
    [fuel] on a closed heap in which fewer than [fuel] objects are still
    unvisited: it returns, [v] is in [seen] afterwards, and what it pushed
    is [v] itself or an object that [typeof] calls ["object"] and that can
    be reached from [v]. *)
Definition call_correct (fuel : nat) : Prop :=
  ∀ v h seen,
    heap_closed h → value_ok h v → v ≠ VUndefined → v ≠ VNull →
    size (unseen h seen) < fuel →
    ∃ h' added,
      _immutable fuel v (h, seen) = Ok (h', seen ++ added) ∧
      traversed h seen h' added ∧
      v ∈ seen ++ added ∧
      (∀ u, u ∈ added →
         u = v ∨ ∃ l l', v = VRef l ∧ u = VRef l' ∧ reachable h l l' ∧
                        typeof h u = Ok "object"%string).

End Freezer.

(** ** Object graphs used as examples *)

Module Examples.

Definition plain (props : list (string * property)) : object :=
  Object false None false props.

(** [var z = {}; var x = {left: z, right: z}; x.self = x;]: a cycle
    through [x] and a node shared by two properties. *)
Definition cyclic_diamond : gmap loc object :=
  {[ 1 := plain [("left"%string, Property (VRef 2) true);
                 ("right"%string, Property (VRef 2) true);
                 ("self"%string, Property (VRef 1) true)];
     2 := plain [] ]}.



(** [var root = {f: function () {}}; root.f.data = {};]: the object
    [data] is held by the function only. *)
Definition behind_function : gmap loc object :=
  {[ 1 := plain [("f"%string, Property (VRef 2) true)];
     2 := Object true None false [("data"%string, Property (VRef 3) true)];
     3 := plain [] ]}.

End Examples.

(** ** The array helpers (array.js, array_basics.js) *)

Module Arrays.

(** [a[i]] for an integer index: a negative index names no element. *)
Definition array_get_Z (a : list value) (i : Z) : value :=
  if (i <? 0)%Z then VUndefined else array_get a (Z.to_nat i).

(** [n | 0] and the operand of [>>]: a number as a signed 32-bit integer. *)
Definition to_int32 (n : Z) : Z := ((n + 2 ^ 31) mod 2 ^ 32 - 2 ^ 31)%Z.

(** An index argument of [Array.prototype.slice] or [splice] relative to
    the length: negative counts from the end, all is clamped. *)
Definition relative_index (len i : Z) : Z :=
  if (i <? 0)%Z then Z.max (len + i) 0 else Z.min i len.

(** [var slice = generic(_arrayProto.slice);] the engine's
    [Array.prototype.slice] with the receiver as first argument; [end_] is
    [None] when the argument is left out. *)
Definition slice (a : list value) (start : Z) (end_ : option Z) : list value :=
  let len := Z.of_nat (length a) in
  let k := relative_index len start in
  let final := match end_ with
               | None => len
               | Some e => relative_index len e
               end in
  take (Z.to_nat (final - k)) (drop (Z.to_nat k) a).

(** [_findSliceEndIndex] (array.js, lines 2-9):
    [var idx = -1;
     while (++idx < len && predicate.call(predicateContext, arrayLike[idx], idx, arrayLike));
     return idx;]
    [idx] is the value after the increment, [n] is [len - idx]. *)
Fixpoint findSliceEnd_loop (n : nat) (arrayLike : list value)
    (predicate : Partition.callback) (predicateContext : value)
    (idx : nat) : nat :=
  match n with
  | 0 => idx
  | S n' =>
      if truthy (predicate predicateContext (array_get arrayLike idx) idx
                   arrayLike)
      then findSliceEnd_loop n' arrayLike predicate predicateContext (S idx)
      else idx
  end.

Definition _findSliceEndIndex (arrayLike : list value)
    (predicate : Partition.callback) (predicateContext : value) : nat :=
  findSliceEnd_loop (length arrayLike) arrayLike predicate predicateContext 0.

(** [dropWhile] (array.js, lines 147-151). *)
Definition dropWhile (predicate : Partition.callback)
    (predicateContext : value) : list value → list value :=
  λ arrayLike,
    slice arrayLike
      (Z.of_nat (_findSliceEndIndex arrayLike predicate predicateContext))
      None.

(** [takeWhile] (array.js, lines 766-770). *)
Definition takeWhile (predicate : Partition.callback)
    (predicateContext : value) : list value → list value :=
  λ arrayLike,
    slice arrayLike 0
      (Some (Z.of_nat
               (_findSliceEndIndex arrayLike predicate predicateContext))).

(** [find] (array.js, lines 196-209): the loop leaves at the first
    element the predicate accepts; [result] starts out [undefined]. *)
Fixpoint find_loop (n : nat) (arrayLike : list value)
    (predicate : Partition.callback) (predicateContext : value)
    (i : nat) : value :=
  match n with
  | 0 => VUndefined
  | S n' =>
      let element := array_get arrayLike i in
      if truthy (predicate predicateContext element i arrayLike)
      then element
      else find_loop n' arrayLike predicate predicateContext (S i)
  end.

Definition find (arrayLike : list value) (predicate : Partition.callback)
    (predicateContext : value) : value :=
  find_loop (length arrayLike) arrayLike predicate predicateContext 0.

(** [findIndex] (array.js, lines 232-243): [result] starts out [-1]. *)
Fixpoint findIndex_loop (n : nat) (arrayLike : list value)
    (predicate : Partition.callback) (predicateContext : value)
    (i : nat) : Z :=
  match n with
  | 0 => (-1)%Z
  | S n' =>
      if truthy (predicate predicateContext (array_get arrayLike i) i
                   arrayLike)
      then Z.of_nat i
      else findIndex_loop n' arrayLike predicate predicateContext (S i)
  end.

Definition findIndex (arrayLike : list value) (predicate : Partition.callback)
    (predicateContext : value) : Z :=
  findIndex_loop (length arrayLike) arrayLike predicate predicateContext 0.

(** [filter] (array_basics.js, lines 89-102).  With three arguments the
    predicate is bound to [predicateContext]; with two it is called
    unbound, its receiver argument being [undefined].
    [predicate(arrayLike[i], i, arrayLike) && result.push(arrayLike[i]);] *)
Fixpoint filter_loop (n : nat) (arrayLike : list value)
    (predicate : Partition.callback) (this : value) (i : nat)
    (result : list value) : list value :=
  match n with
  | 0 => result
  | S n' =>
      filter_loop n' arrayLike predicate this (S i)
        (if truthy (predicate this (array_get arrayLike i) i arrayLike)
         then result ++ [array_get arrayLike i]
         else result)
  end.

Definition filter (arrayLike : list value) (predicate : Partition.callback)
    (predicateContext : option value) : list value :=
  let len := length arrayLike in
  filter_loop len arrayLike predicate (default VUndefined predicateContext)
    0 [].

(** [map] (array_basics.js, lines 178-191): [var result = Array(len);]
    then [result[i] = iteratee(arrayLike[i], i, arrayLike);]. *)
Fixpoint map_loop (n : nat) (arrayLike : list value)
    (iteratee : Partition.callback) (this : value) (i : nat)
    (result : list value) : list value :=
  match n with
  | 0 => result
  | S n' =>
      map_loop n' arrayLike iteratee this (S i)
        (array_set result i (iteratee this (array_get arrayLike i) i arrayLike))
  end.

Definition map (arrayLike : list value) (iteratee : Partition.callback)
    (iterateeContext : option value) : list value :=
  let len := length arrayLike in
  map_loop len arrayLike iteratee (default VUndefined iterateeContext) 0
    (replicate len VUndefined).

(** [isIn] (array.js, lines 507-518).  [isSVZ] is not among the source
    files and is taken as a parameter; [fromIndex] is [None] when the
    argument is left out ([undefined | 0] is [0]).
    [for (var i = fromIndex | 0, len = arrayLike.length; i < len; i++)],
    [n] iterations left. *)
Fixpoint isIn_loop (isSVZ : value → value → bool) (n : nat)
    (arrayLike : list value) (value_ : value) (i : Z) : bool :=
  match n with
  | 0 => false
  | S n' =>
      if isSVZ value_ (array_get_Z arrayLike i) then true
      else isIn_loop isSVZ n' arrayLike value_ (i + 1)%Z
  end.

Definition isIn (isSVZ : value → value → bool) (arrayLike : list value)
    (value_ : value) (fromIndex : option Z) : bool :=
  let i := match fromIndex with
           | None => 0%Z
           | Some n => to_int32 n
           end in
  let len := Z.of_nat (length arrayLike) in
  isIn_loop isSVZ (Z.to_nat (len - i)) arrayLike value_ i.

(** [contains] (array.js, lines 66-70). *)
Definition contains (isSVZ : value → value → bool) (value_ : value)
    (fromIndex : option Z) : list value → bool :=
  λ arrayLike, isIn isSVZ arrayLike value_ fromIndex.

(** [identity] (array.js, lines 1052-1054) as an iteratee. *)
Definition identity : Partition.callback := λ _ value_ _ _, value_.

(** [uniques] (array.js, lines 853-872).  [iteratee] is [None] when what
    was passed is not a function; the state of the loop is the pair of
    [result] and [seen]. *)
Fixpoint uniques_loop (isSVZ : value → value → bool) (n : nat)
    (arrayLike : list value) (iteratee : Partition.callback)
    (iterateeContext : value) (i : nat)
    (st : list value * list value) : list value * list value :=
  match n with
  | 0 => st
  | S n' =>
      let value_ :=
        iteratee iterateeContext (array_get arrayLike i) i arrayLike in
      uniques_loop isSVZ n' arrayLike iteratee iterateeContext (S i)
        (if negb (isIn isSVZ st.2 value_ None)
         then (st.1 ++ [array_get arrayLike i], st.2 ++ [value_])
         else st)
  end.

Definition uniques (isSVZ : value → value → bool) (arrayLike : list value)
    (iteratee : option Partition.callback) (iterateeContext : value)
    : list value :=
  let iteratee := default identity iteratee in
  (uniques_loop isSVZ (length arrayLike) arrayLike iteratee iterateeContext
     0 ([], [])).1.

(** [intersection] (array.js, lines 431-436), called with at least one
    array: [rest = slice(arguments, 1)], then the engine's [filter] over
    [uniques(arguments[0])] with [rest.every(contains(item))]. *)
Definition intersection (isSVZ : value → value → bool)
    (first : list value) (rest : list (list value)) : list value :=
  List.filter
    (λ item, forallb (contains isSVZ item None) rest)
    (uniques isSVZ first None VUndefined).

(** [compose] (array.js, lines 1003-1016): the functions are applied from
    the last to the first, each to the result of the one before wrapped
    in an array; a function is what it returns for a receiver and an
    argument vector. *)
Definition compose (functions : list (value → list value → value))
    : value → list value → value :=
  λ this arguments,
    array_get (foldr (λ fn args, [fn this args]) arguments functions) 0.

(** [sorter.ascending] and [sorter.descending] (array.js, lines 707-712).
    [less_than] is the engine's [a < b], and [a > b] is [b < a]. *)
Definition ascending (less_than : value → value → bool) (a b : value)
    : value :=
  if less_than a b then VNum (-1)
  else if less_than b a then VNum 1 else VNum 0.

Definition descending (less_than : value → value → bool) (a b : value)
    : value :=
  if less_than b a then VNum (-1)
  else if less_than a b then VNum 1 else VNum 0.

(** [sorter] (array.js, lines 702-706). *)
Definition sorter (comparer : value → value → value)
    (reader : value → value) : value → value → value :=
  λ a b, comparer (reader a) (reader b).

(** [x || d] for an [x] that is a number or was left out: [undefined]
    and [0] are falsy. *)
Definition number_or (x : option Z) (d : Z) : Z :=
  match x with
  | Some n => if (n =? 0)%Z then d else n
  | None => d
  end.

(** [_getInsertionIndex] (array.js, lines 23-48).  An argument that was
    left out is [None]; the result is [None] when the [switch] matches no
    case and the function returns [undefined].  The recursion runs on a
    budget. *)
Fixpoint _getInsertionIndex (fuel : nat) (less_than : value → value → bool)
    (array : list value) (element : value)
    (comparer : option (value → value → value))
    (reader : option (value → value)) (start end_ : option Z)
    : result (option Z) :=
  match fuel with
  | 0 => Fail OutOfFuel
  | S fuel' =>
      if bool_decide (length array = 0) then Ok (Some 0%Z)
      else
        let comparer := default (ascending less_than) comparer in
        let reader := default (λ v, v) reader in
        let start := number_or start 0 in
        let end_ := number_or end_ (Z.of_nat (length array)) in
        let pivot := Z.shiftr (to_int32 (start + end_)) 1 in
        let compared :=
          comparer (reader element) (reader (array_get_Z array pivot)) in
        if (end_ - start <=? 1)%Z then
          Ok (Some (if strict_equals compared (VNum (-1)) then pivot
                    else (pivot + 1)%Z))
        else if strict_equals compared (VNum (-1)) then
          _getInsertionIndex fuel' less_than array element (Some comparer)
            (Some reader) (Some start) (Some pivot)
        else if strict_equals compared (VNum 0) then Ok (Some (pivot + 1)%Z)
        else if strict_equals compared (VNum 1) then
          _getInsertionIndex fuel' less_than array element (Some comparer)
            (Some reader) (Some pivot) (Some end_)
        else Ok None
  end.

(** [result.splice(start, 0, element)] on a copy: [start] is [None] for
    [undefined], which counts as [0]. *)
Definition splice_insert (a : list value) (start : option Z)
    (element : value) : list value :=
  let len := Z.of_nat (length a) in
  let actual := Z.to_nat (relative_index len (default 0%Z start)) in
  take actual a ++ element :: drop actual a.

(** [insert] (array.js, lines 480-484).  The search halves an interval
    of indices, so a budget of one more than the length is enough. *)
Definition insert (less_than : value → value → bool) (array : list value)
    (element : value) (comparer : option (value → value → value))
    (reader : option (value → value)) : result (list value) :=
  idx ← _getInsertionIndex (S (length array)) less_than array element
          comparer reader None None;
  Ok (splice_insert array idx element).

(** [l] is in non-decreasing order of the numbers [key] reads off its
    elements. *)
Definition sorted_by (key : value → Z) (l : list value) : Prop :=
  ∀ i j x y, i ≤ j → l !! i = Some x → l !! j = Some y →
    (key x ≤ key y)%Z.

End Arrays.

(** ** The object builders (object.js) *)

Module Objects.

(** The own properties of an object that a function creates with [{}]
    and fills by assignment, as a map from keys to values; the order in
    which the engine lists them is not part of the model.

    [result[key] = v] on such an object, whose prototype is the untouched
    [Object.prototype]: for every key but ["__proto__"] the own property
    is created or overwritten.  ["__proto__"] is an inherited setter: it
    ignores a primitive, and given an object or [null] it replaces the
    prototype, after which what assignments do depends on that object;
    this case is outside the model ([None]). *)
Definition set_property (result : gmap string value) (key : string)
    (v : value) : option (gmap string value) :=
  if decide (key = "__proto__"%string) then
    match v with
    | VRef _ | VNull => None
    | _ => Some result
    end
  else Some (<[key := v]> result).

(** [make] (object.js, lines 405-414): the loop over [keys], at index
    [i], with [result[keys[i]] = i < valuesLen ? values[i] : void 0]. *)
Fixpoint make_from (keys : list string) (values : list value) (i : nat)
    (result : gmap string value) : option (gmap string value) :=
  match keys with
  | [] => Some result
  | key :: keys' =>
      result' ← set_property result key
                  (if bool_decide (i < length values)
                   then array_get values i else VUndefined);
      make_from keys' values (S i) result'
  end.

Definition make (keys : list string) (values : list value)
    : option (gmap string value) :=
  make_from keys values 0 ∅.

(** [fromPairs] (object.js, lines 134-142): a pair [[key, value]] is
    modelled by a Rocq pair;
    [pairsList.forEach(function (pair) { result[pair[0]] = pair[1]; })]. *)
Fixpoint fromPairs_from (pairsList : list (string * value))
    (result : gmap string value) : option (gmap string value) :=
  match pairsList with
  | [] => Some result
  | kv :: rest =>
      result' ← set_property result kv.1 kv.2;
      fromPairs_from rest result'
  end.

Definition fromPairs (pairsList : list (string * value))
    : option (gmap string value) :=
  fromPairs_from pairsList ∅.

(** What [pick] and [skip] can see of their [source]: the answer of
    [key in source], the value of [source[key]], and the keys that
    [for (var key in source)] goes through, in that order. *)
Record source : Type := Source {
  src_in : string → bool;
  src_get : string → value;
  src_for_in : list string
}.

(** [pick] (object.js, lines 526-536):
    [whitelist.forEach(function (key) {
         if (key in source) { result[key] = source[key]; }
     });] *)
Fixpoint pick_from (src : source) (whitelist : list string)
    (result : gmap string value) : option (gmap string value) :=
  match whitelist with
  | [] => Some result
  | key :: rest =>
      if src_in src key then
        result' ← set_property result key (src_get src key);
        pick_from src rest result'
      else pick_from src rest result
  end.

Definition pick (src : source) (whitelist : list string)
    : option (gmap string value) :=
  pick_from src whitelist ∅.

(** [skip] (object.js, lines 638-648):
    [for (var key in source) {
         if (blacklist.indexOf(key) === -1) { result[key] = source[key]; }
     }] *)
Fixpoint skip_from (src : source) (keys : list string)
    (blacklist : list value) (result : gmap string value)
    : option (gmap string value) :=
  match keys with
  | [] => Some result
  | key :: rest =>
      if bool_decide (Freezer.indexOf blacklist (VStr key) = (-1)%Z) then
        result' ← set_property result key (src_get src key);
        skip_from src rest blacklist result'
      else skip_from src rest blacklist result
  end.

Definition skip (src : source) (blacklist : list value)
    : option (gmap string value) :=
  skip_from src (src_for_in src) blacklist ∅.

(** [validate] (object.js, lines 730-736): a checker is what it returns
    for an object, an array that is empty when the check passes;
    [checkers.reduce(function (errors, checker) {
         var result = checker(obj);
         result.length && errors.push(result);
         return errors;
     }, [])]. *)
Definition validate {A : Type} (obj : value)
    (checkers : list (value → list A)) : list (list A) :=
  fold_left
    (λ errors checker,
       let result := checker obj in
       if bool_decide (length result ≠ 0) then errors ++ [result]
       else errors)
    checkers [].

End Objects.

(** ** Nested arrays, grouping and tearing apart *)

Module Nested.

(** An element of an array that may hold arrays: a value that is not an
    array, or an array of such elements. *)
#[local] Unset Elimination Schemes.
Inductive item : Type :=
  | Atom (v : value)
  | Arr (items : list item).
#[local] Set Elimination Schemes.

(** The callback of the [forEach] in [_flatten] (array.js, lines 11-21):
    [if (Array.isArray(value)) { _flatten(value, output); }
     else { output.push(value); }]
    and through it [_flatten] itself, which runs it over [array]. *)
Fixpoint flatten_item (x : item) (output : list value) : list value :=
  match x with
  | Atom v => output ++ [v]
  | Arr items => fold_left (λ out y, flatten_item y out) items output
  end.

Definition _flatten (array : list item) (output : list value) : list value :=
  fold_left (λ out y, flatten_item y out) array output.

(** [flatten] (array.js, lines 297-299). *)
Definition flatten (array : list item) : list value := _flatten array [].

(** [shallowFlatten] (array.js, lines 681-683):
    [_arrayProto.concat.apply([], array)] appends the elements of every
    element that is an array and every other element as it is. *)
Definition shallowFlatten (array : list item) : list item :=
  concat ((λ x, match x with
                | Arr items => items
                | Atom v => [Atom v]
                end) <$> array).

(** [group] (array.js, lines 359-376).  The iteratee's answer is taken as
    the property key it is used as.  [groups] is the map of the own
    properties of the object [result] under construction; [inherited] says which
    keys [Object.prototype] answers [key in result] for.  On such a key
    [result[key]] is not one of the arrays the function made and has no
    [push]: the call throws. *)
Fixpoint group_loop (inherited : string → bool) (n : nat)
    (arrayLike : list value)
    (iteratee : value → value → nat → list value → string)
    (iterateeContext : value) (i : nat)
    (groups : gmap string (list value))
    : result (gmap string (list value)) :=
  match n with
  | 0 => Ok groups
  | S n' =>
      let element := array_get arrayLike i in
      let key := iteratee iterateeContext element i arrayLike in
      match groups !! key with
      | Some elements =>
          group_loop inherited n' arrayLike iteratee iterateeContext (S i)
            (<[key := elements ++ [element]]> groups)
      | None =>
          if inherited key then Fail TypeError
          else group_loop inherited n' arrayLike iteratee iterateeContext
                 (S i) (<[key := [element]]> groups)
      end
  end.

Definition group (inherited : string → bool) (arrayLike : list value)
    (iteratee : value → value → nat → list value → string)
    (iterateeContext : value) : result (gmap string (list value)) :=
  group_loop inherited (length arrayLike) arrayLike iteratee iterateeContext
    0 ∅.

(** The elements of a stretch of [arrayLike] starting at index [k] whose
    key is [key], in their order. *)
Definition keyed (iteratee : value → value → nat → list value → string)
    (iterateeContext : value) (key : string) (arrayLike : list value)
    (k : nat) (stretch : list value) : list value :=
  (filter (λ ie, iteratee iterateeContext ie.2 ie.1 arrayLike = key)
     (Partition.entries_from k stretch)).*2.

(** The function that [_tearFrom] curries (object.js, lines 36-42):
    [getKeys(obj).reduce(function (result, key) {
         result[0].push(key); result[1].push(obj[key]); return result;
     }, [[], []])]; [keys] is [getKeys(obj)] and [get] is [obj[key]]. *)
Definition tear_keys (keys : list string) (get : string → value)
    : list string * list value :=
  fold_left (λ result key, (result.1 ++ [key], result.2 ++ [get key]))
    keys ([], []).

(** The function that [_pairsFrom] curries (object.js, lines 32-34) with
    [_keyToPair] (lines 18-20): [getKeys(obj).map(_keyToPair, obj)]. *)
Definition pairs_keys (keys : list string) (get : string → value)
    : list (string * value) :=
  (λ key, (key, get key)) <$> keys.

End Nested.

(** * Theorems *)

(** ** Arrays *)

Lemma array_get_app_r (a b : list value) (k : nat) :
  array_get (a ++ b) (length a + k) = array_get b k.
Proof. unfold array_get. by rewrite lookup_app_r, Nat.add_comm, Nat.add_sub by lia. Qed.

Lemma array_get_drop (a : list value) (k : nat) :
  drop k a = [] ∧ array_get a k = VUndefined ∨
  drop k a = array_get a k :: drop (S k) a.
Proof.
  unfold array_get. destruct (a !! k) as [x|] eqn:E.
  - right. by rewrite (drop_S _ _ _ E).
  - left. split; [|done]. apply drop_ge. by apply lookup_ge_None.
Qed.

(** Writing at the index [length a] is a push. *)
Lemma array_set_end (a : list value) (v : value) :
  array_set a (length a) v = a ++ [v].
Proof.
  unfold array_set. destruct (decide _) as [?|_]; [lia|].
  by rewrite Nat.sub_diag.
Qed.

(** ** [partial] *)

Section partial_facts.
Import Partial.

Lemma append_rest_spec (n : nat) : ∀ (arguments : list value) k acc,
  n ≤ length arguments - k →
  append_rest n arguments (length acc) k acc = acc ++ take n (drop k arguments).
Proof.
  induction n as [|n IH]; intros arguments k acc Hn; simpl.
  - by rewrite take_0, app_nil_r.
  - rewrite array_set_end.
    replace (S (length acc)) with (length (acc ++ [array_get arguments k]))
      by (rewrite length_app; simpl; lia).
    rewrite IH, <- app_assoc by lia. f_equal.
    destruct (array_get_drop arguments k) as [[E1 E2]|E].
    + apply (f_equal length) in E1. rewrite length_drop in E1. simpl in E1. lia.
    + by rewrite E.
Qed.

Lemma drop_nil_S (a : list value) (k : nat) : drop k a = [] → drop (S k) a = [].
Proof.
  intros E. apply drop_ge. apply (f_equal length) in E.
  rewrite length_drop in E. simpl in E. lia.
Qed.

(** The two loops, started in the middle of the bound slots, compute the
    substitution of the slots that are left. *)
Lemma loops_substitute (slots : list value) :
  ∀ (pre arguments : list value) k acc,
    length acc = length pre →
    (let '(i, lastIdx, newArgs) :=
       fill_bound (length slots) (pre ++ slots) arguments (length pre) k acc in
     append_rest (length arguments - lastIdx) arguments i lastIdx newArgs)
    = acc ++ substitute slots (drop k arguments).
Proof.
  induction slots as [|s slots IH]; intros pre arguments k acc Hlen; simpl.
  - rewrite <- Hlen, append_rest_spec by lia. f_equal.
    apply take_ge. by rewrite length_drop.
  - replace (array_get (pre ++ s :: slots) (length pre)) with s.
    2:{ rewrite <- (Nat.add_0_r (length pre)), array_get_app_r. done. }
    assert (Hset : ∀ v, array_set acc (length pre) v = acc ++ [v])
      by (intros v; rewrite <- Hlen; apply array_set_end).
    rewrite !Hset. unfold strict_equals.
    specialize (IH (pre ++ [s]) arguments).
    rewrite <- (app_assoc pre [s] slots) in IH. simpl in IH.
    rewrite length_app in IH. simpl in IH. rewrite Nat.add_1_r in IH.
    destruct (decide (s = placeholder)) as [->|Hs].
    + rewrite bool_decide_eq_true_2 by done.
      rewrite IH by (rewrite length_app; simpl; lia).
      rewrite <- app_assoc. f_equal. simpl.
      destruct (array_get_drop arguments k) as [[E1 E2]|E].
      * by rewrite E1, E2, (drop_nil_S _ _ E1).
      * by rewrite E.
    + rewrite bool_decide_eq_false_2 by done.
      rewrite IH by (rewrite length_app; simpl; lia).
      by rewrite <- app_assoc.
Qed.

(** What the code builds is what the specification describes. *)
Lemma newArgs_of_substitute (slots runtimeArgs : list value) :
  newArgs_of slots runtimeArgs = substitute slots runtimeArgs.
Proof.
  unfold newArgs_of.
  exact (loops_substitute slots [] runtimeArgs 0 [] eq_refl).
Qed.

Lemma placeholders_cons (s : value) (slots : list value) :
  placeholders (s :: slots)
  = (if decide (s = placeholder) then 1 else 0) + placeholders slots.
Proof.
  unfold placeholders. rewrite filter_cons.
  by destruct (decide (s = placeholder)).
Qed.

Lemma array_get_nil (k : nat) : array_get [] k = VUndefined.
Proof. done. Qed.

(** Position by position: a concrete slot stays, a placeholder slot
    receives the runtime argument whose index is the number of
    placeholders before it. *)
Lemma substitute_lookup (slots : list value) :
  ∀ (runtimeArgs : list value) i s,
    slots !! i = Some s →
    substitute slots runtimeArgs !! i
    = Some (if decide (s = placeholder)
            then array_get runtimeArgs (placeholders (take i slots))
            else s).
Proof.
  induction slots as [|s0 slots IH]; intros rt i s Hi; [done|].
  destruct i as [|i]; simpl in Hi.
  - injection Hi as ->. simpl.
    destruct (decide (s = placeholder)); [|done].
    by destruct rt.
  - simpl take. rewrite placeholders_cons. simpl substitute.
    destruct (decide (s0 = placeholder)) as [->|Hs0].
    + destruct rt as [|r rest]; simpl; rewrite (IH _ _ _ Hi);
        destruct (decide (s = placeholder)); done.
    + simpl. by rewrite (IH _ _ _ Hi).
Qed.

Lemma substitute_length (slots : list value) : ∀ runtimeArgs : list value,
  length (substitute slots runtimeArgs)
  = length slots + (length runtimeArgs - placeholders slots).
Proof.
  induction slots as [|s slots IH]; intros rt; simpl.
  - unfold placeholders. simpl. lia.
  - rewrite placeholders_cons.
    destruct (decide (s = placeholder)).
    + destruct rt; simpl; rewrite IH; simpl; lia.
    + simpl. rewrite IH. lia.
Qed.

Lemma substitute_sublist (slots : list value) : ∀ runtimeArgs : list value,
  runtimeArgs `sublist_of` substitute slots runtimeArgs.
Proof.
  induction slots as [|s slots IH]; intros rt; simpl; [done|].
  destruct (decide (s = placeholder)).
  - destruct rt as [|r rest].
    + apply sublist_nil_l.
    + by apply sublist_skip.
  - by apply sublist_cons.
Qed.

Lemma substitute_no_placeholder (slots runtimeArgs : list value) :
  placeholder ∉ slots → substitute slots runtimeArgs = slots ++ runtimeArgs.
Proof.
  induction slots as [|s slots IH]; intros Hn; simpl; [done|].
  apply not_elem_of_cons in Hn as [Hs Hn].
  destruct (decide (s = placeholder)); [congruence|].
  by rewrite IH.
Qed.

Lemma substitute_elem_of (slots : list value) :
  ∀ (runtimeArgs : list value) v,
    v ∈ substitute slots runtimeArgs →
    v ∈ runtimeArgs ∨ v = VUndefined ∨ (v ∈ slots ∧ v ≠ placeholder).
Proof.
  induction slots as [|s slots IH]; intros rt v Hv; simpl in Hv; [by left|].
  destruct (decide (s = placeholder)).
  - destruct rt as [|r rest]; apply elem_of_cons in Hv as [->|Hv].
    + by right; left.
    + destruct (IH _ _ Hv) as [?|[?|[? ?]]]; [by left|by right; left|].
      right; right. split; [by apply elem_of_cons; right|done].
    + left. by apply elem_of_cons; left.
    + destruct (IH _ _ Hv) as [?|[?|[? ?]]];
        [left; by apply elem_of_cons; right|by right; left|].
      right; right. split; [by apply elem_of_cons; right|done].
  - apply elem_of_cons in Hv as [->|Hv].
    + right; right. split; [by apply elem_of_cons; left|done].
    + destruct (IH _ _ Hv) as [?|[?|[? ?]]]; [by left|by right; left|].
      right; right. split; [by apply elem_of_cons; right|done].
Qed.

(** C1.  The function returned by [partial(fn, ...slots)] calls [fn] with
    the vector obtained by scanning the bound slots from the left, copying
    each concrete slot, replacing each placeholder slot by the next runtime
    argument not yet consumed and appending the runtime arguments that are
    left.  In particular, for concrete [a] and [b],
    [partial(fn, a, _)(b)] is [fn(a, b)] and [partial(fn, _, b)(a, c)] is
    [fn(a, b, c)]. *)
Theorem partial_calls_fn_with_substitution {R : Type}
    (fn : value → list value → R) (slots runtimeArgs : list value)
    (this : value) :
  partial fn slots this runtimeArgs = fn this (substitute slots runtimeArgs) ∧
  (∀ a b, a ≠ placeholder →
     partial fn [a; placeholder] this [b] = fn this [a; b]) ∧
  (∀ a b c, b ≠ placeholder →
     partial fn [placeholder; b] this [a; c] = fn this [a; b; c]).
Proof.
  unfold partial. split; [by rewrite newArgs_of_substitute|].
  split.
  - intros a b Ha. rewrite newArgs_of_substitute. simpl.
    destruct (decide (a = placeholder)); [done|].
    by destruct (decide (placeholder = placeholder)).
  - intros a b c Hb. rewrite newArgs_of_substitute. simpl.
    destruct (decide (placeholder = placeholder)); [|done].
    by destruct (decide (b = placeholder)).
Qed.

Lemma partial_calls_fn_with_substitution_witness :
  partial (λ _ newArgs, newArgs) [VStr "a"; placeholder] VUndefined [VStr "b"]
  = [VStr "a"; VStr "b"].
Proof.
  apply (proj1 (proj2 (partial_calls_fn_with_substitution
                         (λ _ newArgs, newArgs) [] [] VUndefined))).
  discriminate.
Defined.

(** C2.  When a call supplies fewer runtime arguments than there are
    placeholder slots, nothing is raised by the partial application: [fn]
    is called with a vector as long as the slot list, in which every
    placeholder slot that no runtime argument is left for holds
    [undefined]. *)
Theorem partial_missing_argument_is_undefined {R : Type}
    (fn : value → list value → R) (slots runtimeArgs : list value)
    (this : value) :
  length runtimeArgs < placeholders slots →
  ∃ newArgs,
    partial fn slots this runtimeArgs = fn this newArgs ∧
    newArgs = newArgs_of slots runtimeArgs ∧
    length newArgs = length slots ∧
    ∀ i, slots !! i = Some placeholder →
         length runtimeArgs ≤ placeholders (take i slots) →
         newArgs !! i = Some VUndefined.
Proof.
  intros Hlt. exists (newArgs_of slots runtimeArgs).
  split; [done|]. split; [done|]. rewrite newArgs_of_substitute. split.
  - rewrite substitute_length. lia.
  - intros i Hi Hk. rewrite (substitute_lookup _ _ _ _ Hi).
    destruct (decide (placeholder = placeholder)); [|done].
    unfold array_get. by rewrite lookup_ge_None_2.
Qed.

Lemma partial_missing_argument_is_undefined_witness :
  ∃ newArgs,
    partial (λ _ newArgs, newArgs) [placeholder; VNum 7; placeholder]
      VUndefined [VNum 1] = newArgs ∧
    newArgs = newArgs_of [placeholder; VNum 7; placeholder] [VNum 1] ∧
    length newArgs = 3 ∧
    ∀ i, [placeholder; VNum 7; placeholder] !! i = Some placeholder →
         1 ≤ placeholders (take i [placeholder; VNum 7; placeholder]) →
         newArgs !! i = Some VUndefined.
Proof.
  apply (partial_missing_argument_is_undefined (λ _ newArgs, newArgs)
           [placeholder; VNum 7; placeholder] [VNum 1] VUndefined).
  vm_compute. lia.
Defined.

(** C3.  A placeholder among the runtime arguments of a call is an
    ordinary value: the concrete slots stay where the builder put them,
    a placeholder slot receives the runtime argument at its rank whatever
    that argument is, the runtime arguments all reach [fn] in their
    order, and when the builder bound no placeholder the vector is the
    slots followed by the runtime arguments as they are. *)
Theorem partial_runtime_placeholder_is_literal {R : Type}
    (fn : value → list value → R) (slots runtimeArgs : list value)
    (this : value) :
  partial fn slots this runtimeArgs = fn this (newArgs_of slots runtimeArgs) ∧
  (∀ i s, slots !! i = Some s → s ≠ placeholder →
     newArgs_of slots runtimeArgs !! i = Some s) ∧
  (∀ i k, slots !! i = Some placeholder →
     placeholders (take i slots) = k → k < length runtimeArgs →
     newArgs_of slots runtimeArgs !! i = runtimeArgs !! k) ∧
  runtimeArgs `sublist_of` newArgs_of slots runtimeArgs ∧
  (placeholder ∉ slots → newArgs_of slots runtimeArgs = slots ++ runtimeArgs).
Proof.
  split; [done|]. rewrite newArgs_of_substitute. split; [|split; [|split]].
  - intros i s Hi Hs. rewrite (substitute_lookup _ _ _ _ Hi).
    by destruct (decide (s = placeholder)).
  - intros i k Hi <- Hk. rewrite (substitute_lookup _ _ _ _ Hi).
    destruct (decide (placeholder = placeholder)); [|done].
    unfold array_get.
    by destruct (lookup_lt_is_Some_2 _ _ Hk) as [x ->].
  - apply substitute_sublist.
  - apply substitute_no_placeholder.
Qed.

Lemma partial_runtime_placeholder_is_literal_witness :
  newArgs_of [VNum 1; VNum 2] [placeholder; VNum 3]
  = [VNum 1; VNum 2; placeholder; VNum 3].
Proof.
  apply (proj2 (proj2 (proj2 (proj2 (partial_runtime_placeholder_is_literal
           (λ _ newArgs, newArgs) [VNum 1; VNum 2] [placeholder; VNum 3]
           VUndefined))))).
  vm_compute. intros H. inversion H as [|? ? ? H1]; subst.
  inversion H1 as [|? ? ? H2]; subst. inversion H2.
Defined.

(** C4, as stated, fails: a placeholder handed over at call time reaches
    the wrapped function. *)
Lemma placeholder_reaches_wrapped_function :
  partial (λ _ newArgs, newArgs) [VNum 1] VUndefined [placeholder]
  = [VNum 1; placeholder] ∧
  ¬ (∀ slots runtimeArgs : list value,
       placeholder ∉ newArgs_of slots runtimeArgs).
Proof.
  split; [done|]. intros H. apply (H [VNum 1] [placeholder]).
  vm_compute. apply elem_of_cons; right. apply elem_of_cons; by left.
Qed.

(** C4, amended.  When no runtime argument of the call is the placeholder,
    no position of the vector handed to the wrapped function holds it. *)
Theorem partial_hides_placeholder {R : Type}
    (fn : value → list value → R) (slots runtimeArgs : list value)
    (this : value) :
  placeholder ∉ runtimeArgs →
  partial fn slots this runtimeArgs = fn this (newArgs_of slots runtimeArgs) ∧
  placeholder ∉ newArgs_of slots runtimeArgs.
Proof.
  intros Hrt. split; [done|]. rewrite newArgs_of_substitute. intros Hin.
  destruct (substitute_elem_of _ _ _ Hin) as [?|[?|[_ ?]]]; done.
Qed.

Lemma partial_hides_placeholder_witness :
  partial (λ _ newArgs, newArgs) [placeholder; VNum 2; placeholder]
    VUndefined [VNum 1]
  = newArgs_of [placeholder; VNum 2; placeholder] [VNum 1] ∧
  placeholder ∉ newArgs_of [placeholder; VNum 2; placeholder] [VNum 1].
Proof.
  apply (partial_hides_placeholder (λ _ newArgs, newArgs)
           [placeholder; VNum 2; placeholder] [VNum 1] VUndefined).
  intros H. inversion H as [|? ? ? H1]; subst. inversion H1.
Defined.

End partial_facts.

(** ** [partition] *)

Section partition_facts.
Import Partition.

Variables (predicate : callback) (predicateContext : value).

#[local] Abbreviation picked := (Partition.picked predicate predicateContext).

Lemma picked_cons (b : bool) (arrayLike : list value) (k : nat)
    (x : value) (stretch : list value) :
  picked b arrayLike k (x :: stretch)
  = (if decide (truthy (predicate predicateContext x k arrayLike) = b)
     then [x] else []) ++ picked b arrayLike (S k) stretch.
Proof.
  unfold picked. simpl. rewrite filter_cons. simpl.
  by destruct (decide _).
Qed.

Lemma partition_loop_spec (stretch : list value) :
  ∀ (pre : list value) (result : list value * list value),
    partition_loop (length stretch) (pre ++ stretch) predicate
      predicateContext (length pre) result
    = (result.1 ++ picked true (pre ++ stretch) (length pre) stretch,
       result.2 ++ picked false (pre ++ stretch) (length pre) stretch).
Proof.
  induction stretch as [|x stretch IH]; intros pre [r0 r1]; simpl.
  - unfold picked. simpl. by rewrite !app_nil_r.
  - replace (array_get (pre ++ x :: stretch) (length pre)) with x
      by (by rewrite <- (Nat.add_0_r (length pre)), array_get_app_r).
    specialize (IH (pre ++ [x])).
    rewrite <- (app_assoc pre [x] stretch), length_app in IH.
    simpl in IH. rewrite Nat.add_1_r in IH.
    rewrite IH, !picked_cons.
    destruct (truthy (predicate predicateContext x (length pre)
                        (pre ++ x :: stretch))); simpl.
    + destruct (decide (true = true)); [|done].
      destruct (decide (true = false)); [done|].
      by rewrite <- app_assoc.
    + destruct (decide (false = true)); [done|].
      destruct (decide (false = false)); [|done].
      by rewrite <- app_assoc.
Qed.

Lemma picked_lengths (arrayLike : list value) (stretch : list value) :
  ∀ k, length (picked true arrayLike k stretch)
       + length (picked false arrayLike k stretch) = length stretch.
Proof.
  induction stretch as [|x stretch IH]; intros k; [done|].
  rewrite !picked_cons, !length_app. simpl length at 5. rewrite <- (IH (S k)).
  destruct (truthy (predicate predicateContext x k arrayLike)); simpl.
  - destruct (decide (true = true)); [|done].
    destruct (decide (true = false)); [done|]. simpl. lia.
  - destruct (decide (false = true)); [done|].
    destruct (decide (false = false)); [|done]. simpl. lia.
Qed.

(** C9.  [partition] returns two lists: the first holds, in input order,
    exactly the elements on which the predicate answers a truthy value,
    the second the others in input order, and their lengths add up to
    the length of the input. *)
Theorem partition_splits_by_predicate (arrayLike : list value) :
  partition arrayLike predicate predicateContext
  = (selected true arrayLike predicate predicateContext,
     selected false arrayLike predicate predicateContext) ∧
  length (partition arrayLike predicate predicateContext).1
  + length (partition arrayLike predicate predicateContext).2
  = length arrayLike.
Proof.
  assert (E : partition arrayLike predicate predicateContext
              = (picked true arrayLike 0 arrayLike,
                 picked false arrayLike 0 arrayLike))
    by exact (partition_loop_spec arrayLike [] ([], [])).
  split; [exact E|]. rewrite E. simpl. apply picked_lengths.
Qed.

End partition_facts.

(** ** The deep freezer *)

Section freezer_facts.
Import Freezer.

Implicit Types (h : gmap loc object) (v u : value) (l : loc)
  (seen added : list value).

Lemma indexOf_from_elem (a : list value) (x : value) :
  ∀ i, (0 ≤ i)%Z → x ∈ a → (i ≤ indexOf_from i a x)%Z.
Proof.
  induction a as [|y a IH]; intros i Hi Hx; [by apply elem_of_nil in Hx|].
  simpl. unfold strict_equals. case_bool_decide as E; [lia|].
  apply elem_of_cons in Hx as [->|Hx]; [done|].
  specialize (IH (i + 1)%Z ltac:(lia) Hx). lia.
Qed.

Lemma indexOf_from_not_elem (a : list value) (x : value) :
  ∀ i, x ∉ a → indexOf_from i a x = (-1)%Z.
Proof.
  induction a as [|y a IH]; intros i Hx; [done|].
  apply not_elem_of_cons in Hx as [Hxy Hx].
  simpl. unfold strict_equals. case_bool_decide as E; [congruence|].
  by apply IH.
Qed.

(** [seen.indexOf(obj) === -1] says that [obj] is not in [seen]. *)
Lemma indexOf_minus_one (a : list value) (x : value) :
  indexOf a x = (-1)%Z ↔ x ∉ a.
Proof.
  split.
  - intros E Hx. pose proof (indexOf_from_elem a x 0 ltac:(lia) Hx) as H.
    unfold indexOf in E. lia.
  - apply indexOf_from_not_elem.
Qed.

Lemma assoc_elem_of (key : string) (ps : list (string * property)) p :
  assoc key ps = Some p → (key, p) ∈ ps.
Proof.
  induction ps as [|[k q] ps IH]; simpl; [done|].
  destruct (decide (k = key)) as [->|].
  - intros [= ->]. apply list_elem_of_here.
  - intros H. apply list_elem_of_further. by apply IH.
Qed.

Lemma assoc_is_Some (key : string) (ps : list (string * property)) :
  key ∈ ps.*1 → is_Some (assoc key ps).
Proof.
  induction ps as [|[k q] ps IH]; simpl; [by intros ?%elem_of_nil|].
  intros H. destruct (decide (k = key)); [by eexists|].
  apply elem_of_cons in H as [?|?]; [congruence|by apply IH].
Qed.

Lemma elem_of_seen_locs l seen : l ∈ seen_locs seen ↔ VRef l ∈ seen.
Proof.
  unfold seen_locs. rewrite elem_of_list_to_set, list_elem_of_omap. split.
  - intros (v & Hv & E). destruct v; simpl in E; try done.
    by injection E as ->.
  - intros H. by exists (VRef l).
Qed.

Lemma freeze_object_idemp (o : object) :
  freeze_object (freeze_object o) = freeze_object o.
Proof. done. Qed.

(** *** What [Object.freeze] leaves alone *)

Lemma froze_nil h : froze [] h h.
Proof. intros l. destruct (decide _) as [H|]; [by apply elem_of_nil in H|done]. Qed.

Lemma froze_app added1 added2 h h1 h2 :
  froze added1 h h1 → froze added2 h1 h2 → froze (added1 ++ added2) h h2.
Proof.
  intros H1 H2 l. rewrite (H2 l), (H1 l).
  destruct (decide (VRef l ∈ added1)) as [E1|E1],
           (decide (VRef l ∈ added2)) as [E2|E2],
           (decide (VRef l ∈ added1 ++ added2)) as [E|E];
    rewrite elem_of_app in E; try tauto.
  by destruct (h !! l).
Qed.

Lemma froze_Object_freeze h v h1 :
  Object_freeze h v = Ok h1 → froze [v] h h1.
Proof.
  intros E l. destruct v as [| | | | |l0]; simpl in E;
    try (injection E as <-;
         destruct (decide _) as [H|]; [by apply list_elem_of_singleton in H|done]).
  destruct (h !! l0) as [o|] eqn:Ho; [|done]. injection E as <-.
  destruct (decide (VRef l ∈ [VRef l0])) as [H|H];
    rewrite list_elem_of_singleton in H.
  - injection H as ->. by rewrite lookup_insert_eq, Ho.
  - rewrite lookup_insert_ne; [done|congruence].
Qed.

Lemma froze_lookup added h h' l :
  froze added h h' →
  h' !! l = h !! l ∨ h' !! l = freeze_object <$> h !! l.
Proof. intros H. rewrite (H l). destruct (decide _); auto. Qed.

Lemma froze_is_Some added h h' l :
  froze added h h' → is_Some (h' !! l) ↔ is_Some (h !! l).
Proof.
  intros H. destruct (froze_lookup _ _ _ l H) as [->| ->]; [done|].
  by rewrite fmap_is_Some.
Qed.

Lemma froze_dom added h h' : froze added h h' → dom h' = dom h.
Proof.
  intros H. apply set_eq. intros l.
  rewrite !elem_of_dom. by eapply froze_is_Some.
Qed.

Lemma froze_own_props added h h' v :
  froze added h h' → own_props h' v = own_props h v.
Proof.
  intros H. destruct v as [| | | | |l]; try done. simpl.
  destruct (froze_lookup _ _ _ l H) as [->| ->]; [done|].
  by destruct (h !! l).
Qed.

Lemma froze_get added h h' v key :
  froze added h h' → get h' v key = get h v key.
Proof. intros H. unfold get. by rewrite (froze_own_props _ _ _ _ H). Qed.

Lemma froze_typeof added h h' v :
  froze added h h' → typeof h' v = typeof h v.
Proof.
  intros H. destruct v as [| | | | |l]; try done. simpl.
  destruct (froze_lookup _ _ _ l H) as [->| ->]; [done|].
  by destruct (h !! l).
Qed.

Lemma froze_edge_via sel added h h' l l' :
  froze added h h' → edge_via sel h' l l' ↔ edge_via sel h l l'.
Proof.
  intros H. unfold edge_via. rewrite (froze_typeof _ _ _ (VRef l') H).
  split; intros (o & key & p & Ho & Hk & Ha & Hs & Hv & Ht).
  - destruct (froze_lookup _ _ _ l H) as [E|E]; rewrite E in Ho.
    + by exists o, key, p.
    + destruct (h !! l) as [o0|]; [|done]. injection Ho as <-.
      by exists o0, key, p.
  - destruct (froze_lookup _ _ _ l H) as [E|E].
    + exists o, key, p. by rewrite E.
    + exists (freeze_object o), key, p. by rewrite E, Ho.
Qed.

Lemma froze_reachable added h h' l l' :
  froze added h h' → reachable h' l l' ↔ reachable h l l'.
Proof.
  intros H. unfold reachable, edge. split; apply rtc_subrel; intros x y;
    by rewrite (froze_edge_via _ _ _ _ x y H).
Qed.

Lemma heap_closed_lookup h l o key p l' :
  heap_closed h → h !! l = Some o → (key, p) ∈ o_props o →
  p_value p = VRef l' → is_Some (h !! l').
Proof.
  intros Hc Ho Hp Hv. specialize (Hc l o Ho). simpl in Hc.
  rewrite Forall_forall in Hc. specialize (Hc (key, p) Hp). simpl in Hc.
  by rewrite Hv in Hc.
Qed.

Lemma heap_closed_intro h :
  (∀ l o key p l', h !! l = Some o → (key, p) ∈ o_props o →
     p_value p = VRef l' → is_Some (h !! l')) →
  heap_closed h.
Proof.
  intros H l o Ho. simpl. apply Forall_forall. intros [key p] Hp. simpl.
  destruct (p_value p) as [| | | | |l'] eqn:Hv; try done. simpl.
  by eapply H.
Qed.

Lemma froze_heap_closed added h h' :
  froze added h h' → heap_closed h → heap_closed h'.
Proof.
  intros H Hc. apply heap_closed_intro. intros l o key p l' Ho Hp Hv.
  rewrite (froze_is_Some _ _ _ l' H).
  destruct (froze_lookup _ _ _ l H) as [E|E]; rewrite E in Ho.
  - by eapply heap_closed_lookup.
  - destruct (h !! l) as [o0|] eqn:Ho0; [|done]. injection Ho as <-.
    by eapply (heap_closed_lookup h l o0).
Qed.

(** *** The variant *)

Lemma unseen_mono added h h' seen seen' :
  froze added h h' → (∀ u, u ∈ seen → u ∈ seen') →
  size (unseen h' seen') ≤ size (unseen h seen).
Proof.
  intros H Hsub. apply subseteq_size. unfold unseen.
  rewrite (froze_dom _ _ _ H). intros l.
  rewrite !elem_of_difference, !elem_of_seen_locs.
  intros [Hd Hl]. split; [done|]. intros Hin. by apply Hl, Hsub.
Qed.

Lemma unseen_push added h h' seen l :
  froze added h h' → is_Some (h !! l) → VRef l ∉ seen →
  size (unseen h' (seen ++ [VRef l])) < size (unseen h seen).
Proof.
  intros H Hl Hn. apply subset_size. unfold unseen.
  rewrite (froze_dom _ _ _ H). split.
  - intros x. rewrite !elem_of_difference, !elem_of_seen_locs, elem_of_app.
    tauto.
  - intros Hsub. specialize (Hsub l).
    rewrite !elem_of_difference, !elem_of_seen_locs, elem_of_app,
      elem_of_dom, list_elem_of_singleton in Hsub.
    tauto.
Qed.

(** *** Stretches of the traversal *)

Lemma traversed_nil h seen : traversed h seen h [].
Proof.
  split; [apply froze_nil|]. split; [constructor|].
  split; [by intros ? ?%elem_of_nil|by intros ? ? ?%elem_of_nil].
Qed.

Lemma traversed_app h seen h1 added1 h2 added2 :
  traversed h seen h1 added1 → traversed h1 (seen ++ added1) h2 added2 →
  traversed h seen h2 (added1 ++ added2).
Proof.
  intros (F1 & N1 & D1 & C1) (F2 & N2 & D2 & C2).
  split; [by eapply froze_app|]. split; [|split].
  - apply NoDup_app. split; [done|]. split; [|done].
    intros u Hu1 Hu2. apply (D2 u Hu2). apply elem_of_app. by right.
  - intros u [Hu|Hu]%elem_of_app; [by apply D1|].
    intros Hs. apply (D2 u Hu). apply elem_of_app. by left.
  - intros l l' [Hl|Hl]%elem_of_app He;
      rewrite (app_assoc seen added1 added2).
    + apply elem_of_app. left. by apply (C1 l).
    + apply (C2 l); [done|]. by apply (froze_edge_via _ _ _ _ _ _ F1).
Qed.

(** *** One property at a time *)

Lemma bind_Ok {A B : Type} (a : A) (k : A → result B) : (Ok a ≫= k) = k a.
Proof. done. Qed.

(** A property that holds an object: the callback makes the recursive
    call on it. *)
Lemma visit_object (rec : value → state → result state) l ps key p l'
    (st : state) :
  own_props st.1 (VRef l) = Ok ps → assoc key ps = Some p →
  p_value p = VRef l' → typeof st.1 (VRef l') = Ok "object"%string →
  visit rec (VRef l) key st = rec (VRef l') st.
Proof.
  intros Hown Ha Hv Ht. unfold visit, get.
  rewrite Hown, Ha. simpl. rewrite Hv, Ht. by rewrite bind_Ok.
Qed.

(** Any other property: a primitive, [null] or a function.  The callback
    does nothing. *)
Lemma visit_skip (rec : value → state → result state) (obj : value) ps key p
    (t : string) (st : state) :
  own_props st.1 obj = Ok ps → assoc key ps = Some p →
  typeof st.1 (p_value p) = Ok t →
  t ≠ "object"%string ∨ p_value p = VNull →
  visit rec obj key st = Ok st.
Proof.
  intros Hown Ha Ht Hs. unfold visit, get.
  rewrite Hown, Ha. simpl. rewrite Ht, bind_Ok.
  destruct Hs as [Hs| ->].
  - by rewrite bool_decide_eq_false_2.
  - by rewrite andb_false_r.
Qed.

Lemma property_cases h l o key p :
  heap_closed h → h !! l = Some o → (key, p) ∈ o_props o →
  (∃ l', p_value p = VRef l' ∧ typeof h (VRef l') = Ok "object"%string) ∨
  (∃ t, typeof h (p_value p) = Ok t ∧
        (t ≠ "object"%string ∨ p_value p = VNull)).
Proof.
  intros Hc Ho Hp. destruct (p_value p) as [| | | | |l'] eqn:Hv.
  - right. exists "undefined"%string. split; [done|by left].
  - right. exists "object"%string. split; [done|by right].
  - right. exists "boolean"%string. split; [done|by left].
  - right. exists "number"%string. split; [done|by left].
  - right. exists "string"%string. split; [done|by left].
  - destruct (heap_closed_lookup h l o key p l' Hc Ho Hp Hv) as [o' Ho'].
    destruct (o_callable o') eqn:Hcall.
    + right. exists "function"%string. simpl. rewrite Ho', Hcall.
      split; [done|by left].
    + left. exists l'. simpl. by rewrite Ho', Hcall.
Qed.

Lemma own_props_ref h l ps :
  own_props h (VRef l) = Ok ps → ∃ o, h !! l = Some o ∧ o_props o = ps.
Proof.
  simpl. destruct (h !! l) as [o|]; [|done]. intros [= <-]. by exists o.
Qed.

Lemma typeof_ref_is_Some h l (t : string) :
  typeof h (VRef l) = Ok t → is_Some (h !! l).
Proof. simpl. by destruct (h !! l). Qed.

Lemma edge_intro h l ps key p l' :
  own_props h (VRef l) = Ok ps → key ∈ ps.*1 → assoc key ps = Some p →
  p_value p = VRef l' → typeof h (VRef l') = Ok "object"%string →
  edge h l l'.
Proof.
  intros (o & Ho & <-)%own_props_ref Hk Ha Hv Ht. by exists o, key, p.
Qed.

(** *** The loop over the property names *)

Lemma forEach_visit (fuel : nat) :
  call_correct fuel →
  ∀ keys h seen l ps,
    heap_closed h → own_props h (VRef l) = Ok ps →
    (∀ key, key ∈ keys → key ∈ ps.*1) →
    size (unseen h seen) < fuel →
    ∃ h' added,
      forEach keys (visit (_immutable fuel) (VRef l)) (h, seen)
        = Ok (h', seen ++ added) ∧
      traversed h seen h' added ∧
      (∀ u, u ∈ added →
         ∃ l', u = VRef l' ∧ reachable h l l' ∧
               typeof h u = Ok "object"%string) ∧
      (∀ key p l', key ∈ keys → assoc key ps = Some p →
         p_value p = VRef l' → typeof h (VRef l') = Ok "object"%string →
         VRef l' ∈ seen ++ added).
Proof.
  intros IHf. induction keys as [|key keys IHk];
    intros h seen l ps Hc Hown Hkeys Hsz.
  { exists h, []. rewrite app_nil_r. split; [done|].
    split; [apply traversed_nil|].
    split; [by intros ? ?%elem_of_nil|by intros ? ? ? ?%elem_of_nil]. }
  assert (Hkey : key ∈ ps.*1) by (apply Hkeys, list_elem_of_here).
  assert (Hrest : ∀ k, k ∈ keys → k ∈ ps.*1)
    by (intros k Hk; by apply Hkeys, list_elem_of_further).
  destruct (assoc_is_Some _ _ Hkey) as [p Hp].
  destruct (own_props_ref _ _ _ Hown) as (o & Ho & Hps).
  assert (Hin : (key, p) ∈ o_props o) by (rewrite Hps; by apply assoc_elem_of).
  destruct (property_cases h l o key p Hc Ho Hin)
    as [(l' & Hv & Ht)|(t & Ht & Hskip)].
  - (* the property holds an object: the recursive call *)
    destruct (IHf (VRef l') h seen Hc (typeof_ref_is_Some _ _ _ Ht)
                ltac:(done) ltac:(done) Hsz)
      as (h1 & a1 & E1 & T1 & I1 & R1).
    pose proof T1 as (F1 & _).
    destruct (IHk h1 (seen ++ a1) l ps) as (h2 & a2 & E2 & T2 & R2 & K2).
    { by eapply froze_heap_closed. }
    { by rewrite (froze_own_props _ _ _ _ F1). }
    { done. }
    { eapply Nat.le_lt_trans; [|exact Hsz].
      apply (unseen_mono _ _ _ _ _ F1). intros u Hu.
      apply elem_of_app. by left. }
    exists h2, (a1 ++ a2). simpl.
    rewrite (visit_object _ l ps key p l' (h, seen) Hown Hp Hv Ht).
    rewrite E1, bind_Ok, E2, (app_assoc seen a1 a2).
    split; [done|]. split; [by eapply traversed_app|].
    assert (Hedge : edge h l l') by (by eapply edge_intro).
    split.
    + intros u [Hu|Hu]%elem_of_app.
      * destruct (R1 u Hu) as [->|(l0 & l1 & [= <-] & -> & Hr & Hty)].
        -- exists l'. split; [done|]. split; [by apply rtc_once|done].
        -- exists l1. split; [done|]. split; [by eapply rtc_l|done].
      * destruct (R2 u Hu) as (l1 & -> & Hr & Hty).
        exists l1. split; [done|].
        split; [by apply (froze_reachable _ _ _ _ _ F1)|].
        by rewrite <- (froze_typeof _ _ _ _ F1).
    + intros k q lq [->|Hk]%elem_of_cons Hq Hvq Htq.
      * rewrite Hp in Hq. injection Hq as <-. rewrite Hv in Hvq.
        injection Hvq as <-. apply elem_of_app. by left.
      * apply (K2 k q lq Hk Hq Hvq). by rewrite (froze_typeof _ _ _ _ F1).
  - (* anything else: the callback leaves the state alone *)
    destruct (IHk h seen l ps Hc Hown Hrest Hsz)
      as (h2 & a2 & E2 & T2 & R2 & K2).
    exists h2, a2. simpl.
    rewrite (visit_skip _ (VRef l) ps key p t (h, seen) Hown Hp Ht Hskip).
    rewrite bind_Ok. split; [done|]. split; [done|]. split; [done|].
    intros k q lq [->|Hk]%elem_of_cons Hq Hvq Htq; [|by eapply K2].
    rewrite Hp in Hq. injection Hq as <-. rewrite Hvq in Ht, Hskip.
    assert (Et : Ok t = Ok "object"%string) by (by rewrite <- Ht, <- Htq).
    injection Et as ->. by destruct Hskip.
Qed.

(** *** Primitive roots *)

Lemma string_chars_elem (s : string) v :
  v ∈ string_chars s → ∃ c, v = VStr c.
Proof.
  induction s as [|a s IH]; simpl; [by intros ?%elem_of_nil|].
  intros [->|H]%elem_of_cons; [by eexists|by apply IH].
Qed.

Lemma string_props_values (s : string) key p :
  (key, p) ∈ string_props s →
  (∃ c, p_value p = VStr c) ∨ (∃ n, p_value p = VNum n).
Proof.
  unfold string_props. intros [H|H]%elem_of_app.
  - apply elem_of_lookup_imap in H as (i & c & [= _ ->] & Hc).
    left. apply (string_chars_elem s). by eapply list_elem_of_lookup_2.
  - apply list_elem_of_singleton in H as [= _ ->]. right. by eexists.
Qed.

(** The own properties of a string hold strings and a number: the
    callback never recurses. *)
Lemma forEach_string (rec : value → state → result state) (s : string)
    (st : state) :
  ∀ keys, forEach keys (visit rec (VStr s)) st = Ok st.
Proof.
  induction keys as [|key keys IH]; [done|]. simpl.
  assert (E : visit rec (VStr s) key st = Ok st); [|by rewrite E, bind_Ok].
  unfold visit, get. simpl.
  destruct (assoc key (string_props s)) as [p|] eqn:Hp; [|done]. simpl.
  apply assoc_elem_of, string_props_values in Hp as [[c ->]|[n ->]]; done.
Qed.

Lemma _immutable_S (fuel : nat) (obj : value) (st : state) :
  _immutable (S fuel) obj st
  = if bool_decide (indexOf st.2 obj = (-1)%Z) then
      h1 ← Object_freeze st.1 obj;
      keys ← getOwnPropertyNames h1 obj;
      forEach keys (visit (_immutable fuel) obj) (h1, st.2 ++ [obj])
    else Ok st.
Proof. done. Qed.

(** A primitive other than [undefined] and [null] is pushed and nothing
    else happens. *)
Lemma _immutable_primitive (fuel : nat) v h seen :
  ref_of v = None → v ≠ VUndefined → v ≠ VNull → v ∉ seen →
  _immutable (S fuel) v (h, seen) = Ok (h, seen ++ [v]).
Proof.
  intros Hr Hu Hn Hs. rewrite _immutable_S. simpl.
  rewrite bool_decide_eq_true_2 by (by apply indexOf_minus_one).
  destruct v; try done; simpl; unfold getOwnPropertyNames; simpl;
    rewrite ?bind_Ok; apply forEach_string.
Qed.

(** *** The traversal *)

Lemma _immutable_correct (fuel : nat) : call_correct fuel.
Proof.
  induction fuel as [|fuel IH]; intros v h seen Hc Hok Hu Hn Hsz; [lia|].
  destruct (decide (v ∈ seen)) as [Hs|Hs].
  { (* already seen: nothing to do *)
    exists h, []. rewrite app_nil_r, _immutable_S. simpl.
    rewrite bool_decide_eq_false_2 by (by rewrite indexOf_minus_one; tauto).
    split; [done|]. split; [apply traversed_nil|].
    split; [done|by intros ? ?%elem_of_nil]. }
  destruct (ref_of v) as [l|] eqn:Hr.
  - (* an object *)
    destruct v; try done. simpl in Hr. injection Hr as ->.
    destruct Hok as [o Ho].
    assert (F0 : froze [VRef l] h (<[l := freeze_object o]> h)).
    { apply froze_Object_freeze. simpl. by rewrite Ho. }
    destruct (forEach_visit fuel IH (o_props o).*1
                (<[l := freeze_object o]> h) (seen ++ [VRef l]) l (o_props o))
      as (h' & added & E & T & R & K).
    { by eapply froze_heap_closed. }
    { simpl. by rewrite lookup_insert_eq. }
    { done. }
    { pose proof (unseen_push _ _ _ seen l F0 (mk_is_Some _ _ Ho) Hs). lia. }
    exists h', (VRef l :: added).
    rewrite _immutable_S. simpl.
    rewrite bool_decide_eq_true_2 by (by apply indexOf_minus_one).
    rewrite Ho, bind_Ok. unfold getOwnPropertyNames. simpl.
    rewrite lookup_insert_eq, !bind_Ok. simpl. rewrite E.
    rewrite <- (app_assoc seen [VRef l] added). simpl.
    split; [done|].
    destruct T as (F & N & D & C).
    assert (Eapp : ∀ x, x ∈ seen ++ VRef l :: added
                      ↔ x ∈ (seen ++ [VRef l]) ++ added).
    { intros x. by rewrite <- (app_assoc seen [VRef l] added). }
    split; [split; [|split; [|split]]|split].
    + exact (froze_app [VRef l] added _ _ _ F0 F).
    + apply NoDup_cons. split; [|done]. intros Hl. apply (D _ Hl).
      apply elem_of_app. right. apply list_elem_of_here.
    + intros u [->|Hua]%elem_of_cons; [done|]. intros Hus. apply (D _ Hua).
      apply elem_of_app. by left.
    + intros l0 l' [[= ->]|Hl0]%elem_of_cons He; apply Eapp.
      * destruct He as (o' & key & p & Ho' & Hk & Ha & _ & Hv & Ht).
        rewrite Ho in Ho'. injection Ho' as <-.
        apply (K key p l' Hk Ha Hv). by rewrite (froze_typeof _ _ _ _ F0).
      * apply (C l0 l' Hl0). by apply (froze_edge_via _ _ _ _ _ _ F0).
    + apply elem_of_app. right. apply list_elem_of_here.
    + intros u [->|Hua]%elem_of_cons; [by left|]. right.
      destruct (R u Hua) as (l' & -> & Hr & Hty). exists l, l'.
      split; [done|]. split; [done|].
      split; [by apply (froze_reachable _ _ _ _ _ F0)|].
      by rewrite <- (froze_typeof _ _ _ _ F0).
  - (* a primitive *)
    exists h, [v]. rewrite (_immutable_primitive _ _ _ _ Hr Hu Hn Hs).
    split; [done|]. split; [|split].
    + split.
      * apply (froze_Object_freeze h v h). by destruct v.
      * split; [apply NoDup_singleton|].
        split; [by intros u ->%list_elem_of_singleton|].
        intros l l' Hl%list_elem_of_singleton. by rewrite <- Hl in Hr.
    + apply elem_of_app. right. apply list_elem_of_here.
    + intros u ->%list_elem_of_singleton. by left.
Qed.

(** *** More budget changes nothing *)

Lemma forEach_visit_mono (rec rec' : value → state → result state)
    (obj : value) :
  (∀ v st r, rec v st = Ok r → rec' v st = Ok r) →
  ∀ keys st r,
    forEach keys (visit rec obj) st = Ok r →
    forEach keys (visit rec' obj) st = Ok r.
Proof.
  intros Hrec. induction keys as [|key keys IH]; intros st r; [done|].
  simpl. destruct (visit rec obj key st) as [st1|] eqn:E; [|done].
  rewrite bind_Ok. intros Hr.
  assert (E' : visit rec' obj key st = Ok st1).
  { revert E. unfold visit. destruct (typeof st.1 (get st.1 obj key)); [|done].
    rewrite !bind_Ok. destruct (_ && _); [apply Hrec|done]. }
  rewrite E', bind_Ok. by apply IH.
Qed.

Lemma _immutable_mono (fuel : nat) :
  ∀ fuel' v st r, fuel ≤ fuel' →
    _immutable fuel v st = Ok r → _immutable fuel' v st = Ok r.
Proof.
  induction fuel as [|fuel IH]; intros fuel' v st r Hle; [done|].
  destruct fuel' as [|fuel']; [lia|]. rewrite !_immutable_S.
  destruct (bool_decide _); [|done].
  destruct (Object_freeze st.1 v) as [h1|]; [|done]. rewrite !bind_Ok.
  destruct (getOwnPropertyNames h1 v) as [keys|]; [|done]. rewrite !bind_Ok.
  apply forEach_visit_mono. intros u st' r'. apply IH. lia.
Qed.

(** *** A whole run *)

Lemma unseen_nil h : size (unseen h []) = size h.
Proof.
  unfold unseen, seen_locs. simpl.
  by rewrite difference_empty_L, size_dom.
Qed.

Lemma traversed_reachable h h' seen' r :
  traversed h [] h' seen' → VRef r ∈ seen' →
  ∀ l, reachable h r l → VRef l ∈ seen'.
Proof.
  intros (_ & _ & _ & C) Hr l Hl. unfold reachable in Hl.
  revert l Hl. apply (rtc_ind_r (λ l, VRef l ∈ seen')); [done|].
  intros y z _ Hyz IH. by apply (C y z).
Qed.

Lemma froze_frozen added h h' l :
  froze added h h' → VRef l ∈ added → is_Some (h !! l) → is_frozen h' l.
Proof.
  intros F Hl [o Ho]. unfold is_frozen. rewrite (F l).
  destruct (decide _); [|done]. by rewrite Ho.
Qed.


(** Freezing what is frozen already changes nothing. *)
Lemma froze_again added h h' :
  froze added h h' → (∀ l, VRef l ∈ added → is_frozen h l) → h' = h.
Proof.
  intros F Hf. apply map_eq. intros l. rewrite (F l).
  destruct (decide _) as [Hl|]; [|done].
  specialize (Hf l Hl). unfold is_frozen in Hf.
  destruct (h !! l) as [[c pr fr ps]|]; [|done]. simpl in *.
  by injection Hf as ->.
Qed.

Lemma immutable_run h v :
  heap_closed h → value_ok h v → v ≠ VUndefined → v ≠ VNull →
  ∃ h' seen',
    (∀ fuel, size h < fuel → _immutable fuel v (h, []) = Ok (h', seen')) ∧
    immutable h v = Ok (v, h') ∧
    traversed h [] h' seen' ∧ v ∈ seen' ∧
    (∀ u, u ∈ seen' →
       u = v ∨ ∃ l l', v = VRef l ∧ u = VRef l' ∧ reachable h l l' ∧
                      typeof h u = Ok "object"%string).
Proof.
  intros Hc Hok Hu Hn.
  destruct (_immutable_correct (S (size h)) v h [] Hc Hok Hu Hn)
    as (h' & seen' & E & T & I & R).
  { rewrite unseen_nil. lia. }
  change ([] ++ seen') with seen' in E, T, I. exists h', seen'.
  split; [|split; [|done]].
  - intros fuel Hf. apply (_immutable_mono (S (size h))); [lia|exact E].
  - unfold immutable. by rewrite E.
Qed.

Lemma seen_is_Some h r seen' l :
  is_Some (h !! r) →
  (∀ u, u ∈ seen' →
     u = VRef r ∨ ∃ l0 l', VRef r = VRef l0 ∧ u = VRef l' ∧
                          reachable h l0 l' ∧
                          typeof h u = Ok "object"%string) →
  VRef l ∈ seen' → is_Some (h !! l) ∧ reachable h r l.
Proof.
  intros Hr R Hl.
  destruct (R _ Hl) as [[= ->]|(l0 & l' & [= <-] & [= <-] & Hre & Ht)].
  - split; [done|apply rtc_refl].
  - split; [by eapply typeof_ref_is_Some|done].
Qed.


(** C5.  On every object graph, cyclic or with nodes shared by several
    parents, [immutable(root)] terminates: any budget above the number of
    objects gives the same result.  The array [seen], to which an object
    is pushed at the moment it is frozen and its properties are scanned,
    ends up holding every object reachable from the root, each once. *)
Theorem immutable_terminates_visiting_once h r :
  heap_closed h → is_Some (h !! r) →
  ∃ h' seen',
    (∀ fuel, size h < fuel →
       _immutable fuel (VRef r) (h, []) = Ok (h', seen')) ∧
    immutable h (VRef r) = Ok (VRef r, h') ∧
    NoDup seen' ∧
    (∀ v, v ∈ seen' ↔ ∃ l, v = VRef l ∧ reachable h r l).
Proof.
  intros Hc Hr.
  destruct (immutable_run h (VRef r) Hc Hr ltac:(done) ltac:(done))
    as (h' & seen' & E & Ei & T & I & R).
  exists h', seen'. split; [done|]. split; [done|].
  split; [by destruct T as (_ & N & _)|].
  intros v. split.
  - intros Hv. destruct (R v Hv) as [->|(l0 & l' & [= <-] & -> & Hre & _)].
    + exists r. split; [done|apply rtc_refl].
    + by exists l'.
  - intros (l & -> & Hl). by eapply traversed_reachable.
Qed.

Lemma immutable_terminates_visiting_once_witness :
  ∃ h' seen',
    (∀ fuel, size Examples.cyclic_diamond < fuel →
       _immutable fuel (VRef 1) (Examples.cyclic_diamond, [])
       = Ok (h', seen')) ∧
    immutable Examples.cyclic_diamond (VRef 1) = Ok (VRef 1, h') ∧
    NoDup seen' ∧
    (∀ v, v ∈ seen' ↔ ∃ l, v = VRef l ∧ reachable Examples.cyclic_diamond 1 l).
Proof.
  apply (immutable_terminates_visiting_once Examples.cyclic_diamond 1).
  - apply (bool_decide_unpack _). vm_compute. exact I.
  - vm_compute. eexists. reflexivity.
Defined.



(** The object that only a function holds is not on such a chain, and it
    stays unfrozen. *)
Lemma object_behind_function_stays_unfrozen :
  ∃ h', immutable Examples.behind_function (VRef 1) = Ok (VRef 1, h') ∧
        is_frozen h' 1 ∧ ¬ is_frozen h' 2 ∧ ¬ is_frozen h' 3 ∧
        ¬ reachable Examples.behind_function 1 3.
Proof.
  eexists. split; [vm_compute; reflexivity|].
  split; [vm_compute; reflexivity|].
  split; [intros H; vm_compute in H; discriminate H|].
  split; [intros H; vm_compute in H; discriminate H|].
  intros Hr. inversion Hr as [|x y z (o & key & p & Ho & _ & Ha & _ & Hv & Ht)];
    subst.
  vm_compute in Ho. injection Ho as <-. simpl in Ha.
  destruct (decide _) in Ha; [|done]. injection Ha as <-.
  simpl in Hv. injection Hv as <-. vm_compute in Ht. discriminate Ht.
Qed.


(** C7, as stated, fails: [null] and [undefined] are values too, and
    [Object.getOwnPropertyNames] throws on them. *)
Lemma immutable_throws_on_null :
  immutable ∅ VNull = Fail TypeError ∧
  immutable ∅ VUndefined = Fail TypeError ∧
  ¬ (∀ h x, heap_closed h → value_ok h x → ∃ h', immutable h x = Ok (x, h')).
Proof.
  split; [done|]. split; [done|]. intros H.
  destruct (H ∅ VNull) as [h' E]; [|done|by vm_compute in E].
  apply (bool_decide_unpack _). vm_compute. exact I.
Qed.

(** C7, amended.  Let [x] be a boolean, a string, an integer (so not
    [NaN], which is not [===] to itself), or an ordinary object or
    function of a heap in which every object is ordinary and every
    property is a data property holding an allocated value: no typed
    array or other object that [Object.freeze] rejects, no accessor, no
    proxy; [null] and [undefined] are left out.  With [Object.freeze]
    and [Object.getOwnPropertyNames] taking primitives as ES2015 has
    them, [immutable(x)] returns [x] itself; a second call returns it
    again and leaves the heap as the first call left it; and when all
    that the traversal reaches is frozen already the call changes
    nothing.  None of these calls raises an error. *)
Theorem immutable_idempotent h x :
  heap_closed h → value_ok h x → x ≠ VUndefined → x ≠ VNull →
  ∃ h',
    immutable h x = Ok (x, h') ∧
    immutable h' x = Ok (x, h') ∧
    ((∀ r l, x = VRef r → reachable h r l → is_frozen h l) → h' = h).
Proof.
  intros Hc Hok Hu Hn.
  destruct (immutable_run h x Hc Hok Hu Hn)
    as (h' & seen' & _ & Ei & T & I & R).
  pose proof T as (F & _).
  assert (Hc' : heap_closed h') by (by eapply froze_heap_closed).
  assert (Hok' : value_ok h' x).
  { destruct x; try done. simpl. by apply (froze_is_Some _ _ _ _ F). }
  destruct (immutable_run h' x Hc' Hok' Hu Hn)
    as (h'' & seen'' & _ & Ei' & T' & I' & R').
  pose proof T' as (F' & _).
  exists h'. split; [done|]. split.
  - rewrite Ei'. f_equal. f_equal. apply (froze_again _ _ _ F').
    intros l Hl.
    destruct (R' _ Hl) as [<-|(l0 & l' & -> & [= <-] & Hre & _)].
    + by apply (froze_frozen _ _ _ _ F I).
    + apply (froze_reachable _ _ _ _ _ F) in Hre.
      assert (Hin : VRef l ∈ seen') by (by eapply traversed_reachable).
      apply (froze_frozen _ _ _ _ F Hin).
      by apply (seen_is_Some h l0 seen' l Hok R).
  - intros Hall. apply (froze_again _ _ _ F). intros l Hl.
    destruct (R _ Hl) as [<-|(l0 & l' & -> & [= <-] & Hre & _)].
    + apply (Hall l l eq_refl). apply rtc_refl.
    + by apply (Hall l0 l eq_refl).
Qed.

Lemma immutable_idempotent_witness :
  ∃ h',
    immutable Examples.cyclic_diamond (VRef 1) = Ok (VRef 1, h') ∧
    immutable h' (VRef 1) = Ok (VRef 1, h') ∧
    ((∀ r l, VRef 1 = VRef r → reachable Examples.cyclic_diamond r l →
             is_frozen Examples.cyclic_diamond l) →
     h' = Examples.cyclic_diamond).
Proof.
  apply (immutable_idempotent Examples.cyclic_diamond (VRef 1)).
  - apply (bool_decide_unpack _). vm_compute. exact I.
  - vm_compute. eexists. reflexivity.
  - discriminate.
  - discriminate.
Defined.



End freezer_facts.

(** ** The array helpers *)

Section arrays_facts.
Import Arrays.

Implicit Types (a arrayLike : list value) (predicate : Partition.callback)
  (predicateContext : value).

Lemma array_get_middle (pre suf : list value) (x : value) :
  array_get (pre ++ x :: suf) (length pre) = x.
Proof. by rewrite <- (Nat.add_0_r (length pre)), array_get_app_r. Qed.

Lemma array_get_lookup a i x : a !! i = Some x → array_get a i = x.
Proof. unfold array_get. by intros ->. Qed.

Lemma slice_prefix a (n : nat) :
  n ≤ length a → slice a 0 (Some (Z.of_nat n)) = take n a.
Proof.
  intros Hn. unfold slice, relative_index.
  change (0 <? 0)%Z with false. cbv iota.
  rewrite (proj2 (Z.ltb_ge (Z.of_nat n) 0)) by lia.
  rewrite !Z.min_l by lia. by rewrite Z.sub_0_r, Nat2Z.id.
Qed.

Lemma slice_suffix a (n : nat) :
  n ≤ length a → slice a (Z.of_nat n) None = drop n a.
Proof.
  intros Hn. unfold slice, relative_index.
  rewrite (proj2 (Z.ltb_ge _ _)) by lia.
  rewrite Z.min_l by lia. rewrite Nat2Z.id.
  apply take_ge. rewrite length_drop. lia.
Qed.

(** The index [_findSliceEndIndex] stops at: everything before it passes
    the predicate, and the element at it, if there is one, does not. *)
Lemma findSliceEnd_loop_spec a predicate predicateContext :
  ∀ suf pre, a = pre ++ suf →
    let idx := findSliceEnd_loop (length suf) a predicate predicateContext
                 (length pre) in
    length pre ≤ idx ≤ length a ∧
    (∀ i x, length pre ≤ i < idx → a !! i = Some x →
       truthy (predicate predicateContext x i a) = true) ∧
    (∀ x, a !! idx = Some x →
       truthy (predicate predicateContext x idx a) = false).
Proof.
  induction suf as [|y suf IH]; intros pre Ha; simpl.
  - subst a. rewrite app_nil_r. split; [lia|]. split; [intros; lia|].
    intros x Hx. apply lookup_lt_Some in Hx. lia.
  - assert (Hy : array_get a (length pre) = y)
      by (subst a; apply array_get_middle).
    rewrite Hy.
    destruct (truthy (predicate predicateContext y (length pre) a)) eqn:Ht.
    + specialize (IH (pre ++ [y])). rewrite length_app in IH. simpl in IH.
      rewrite Nat.add_1_r in IH.
      destruct IH as (Hr & Hbefore & Hat);
        [by rewrite <- app_assoc|].
      split; [lia|]. split; [|done].
      intros i x Hi Hx. destruct (decide (i = length pre)) as [->|Hne].
      * rewrite <- (array_get_lookup _ _ _ Hx), Hy. done.
      * apply Hbefore; [lia|done].
    + split; [subst a; rewrite length_app; simpl; lia|].
      split; [intros; lia|]. intros x Hx.
      by rewrite <- (array_get_lookup _ _ _ Hx), Hy.
Qed.

Lemma _findSliceEndIndex_spec a predicate predicateContext :
  let idx := _findSliceEndIndex a predicate predicateContext in
  idx ≤ length a ∧
  (∀ i x, i < idx → a !! i = Some x →
     truthy (predicate predicateContext x i a) = true) ∧
  (∀ x, a !! idx = Some x →
     truthy (predicate predicateContext x idx a) = false).
Proof.
  destruct (findSliceEnd_loop_spec a predicate predicateContext a [] eq_refl)
    as (Hr & Hb & Hat).
  cbv zeta. unfold _findSliceEndIndex. simpl in Hr, Hb, Hat.
  split; [apply Hr|]. split; [|done].
  intros i x Hi. apply Hb. lia.
Qed.

(** X1.  [takeWhile(p)(a)] followed by [dropWhile(p)(a)] is [a]: the two
    cut the input at the same index. *)
Theorem takeWhile_dropWhile_append a predicate predicateContext :
  takeWhile predicate predicateContext a
  ++ dropWhile predicate predicateContext a = a.
Proof.
  unfold takeWhile, dropWhile.
  destruct (_findSliceEndIndex_spec a predicate predicateContext) as (Hle & _).
  rewrite slice_prefix, slice_suffix by done. apply take_drop.
Qed.

(** X2.  [takeWhile(p)(a)] is the longest prefix of [a] whose elements
    all pass the predicate, and [dropWhile(p)(a)] is the rest: there is
    an index [n] with [takeWhile(p)(a)] the first [n] elements of [a] and
    [dropWhile(p)(a)] the others, every element before [n] passes the
    predicate, called with the element, its index and [a], and the
    element at [n], if there is one, does not. *)
Theorem takeWhile_longest_prefix a predicate predicateContext :
  ∃ n, n ≤ length a ∧
       takeWhile predicate predicateContext a = take n a ∧
       dropWhile predicate predicateContext a = drop n a ∧
       (∀ i x, i < n → a !! i = Some x →
          truthy (predicate predicateContext x i a) = true) ∧
       (∀ x, a !! n = Some x →
          truthy (predicate predicateContext x n a) = false).
Proof.
  destruct (_findSliceEndIndex_spec a predicate predicateContext)
    as (Hle & Hb & Hat).
  exists (_findSliceEndIndex a predicate predicateContext).
  split; [done|]. unfold takeWhile, dropWhile.
  rewrite slice_prefix, slice_suffix by done.
  split; [done|]. split; [done|]. split; [exact Hb|exact Hat].
Qed.

(** Where [findIndex] stops. *)
Lemma findIndex_loop_spec a predicate predicateContext :
  ∀ suf pre, a = pre ++ suf →
    (∀ j y, j < length pre → a !! j = Some y →
       truthy (predicate predicateContext y j a) = false) →
    let r := findIndex_loop (length suf) a predicate predicateContext
               (length pre) in
    (r = (-1)%Z ∧
     ∀ j y, a !! j = Some y →
       truthy (predicate predicateContext y j a) = false) ∨
    (∃ i x, r = Z.of_nat i ∧ a !! i = Some x ∧
       truthy (predicate predicateContext x i a) = true ∧
       ∀ j y, j < i → a !! j = Some y →
         truthy (predicate predicateContext y j a) = false).
Proof.
  induction suf as [|y suf IH]; intros pre Ha Hpre; simpl.
  - left. split; [done|]. intros j z Hj. apply (Hpre j z); [|done].
    apply lookup_lt_Some in Hj. subst a. by rewrite app_nil_r in Hj.
  - assert (Hy : array_get a (length pre) = y)
      by (subst a; apply array_get_middle).
    assert (Hl : a !! length pre = Some y).
    { subst a. by rewrite lookup_app_r, Nat.sub_diag by lia. }
    rewrite Hy.
    destruct (truthy (predicate predicateContext y (length pre) a)) eqn:Ht.
    + right. by exists (length pre), y.
    + specialize (IH (pre ++ [y])). rewrite length_app in IH. simpl in IH.
      rewrite Nat.add_1_r in IH. apply IH; [by rewrite <- app_assoc|].
      intros j z Hj Hz. destruct (decide (j = length pre)) as [->|Hne].
      * rewrite Hl in Hz. by injection Hz as <-.
      * apply Hpre; [lia|done].
Qed.

(** X3.  [findIndex] answers [-1] exactly when no element passes the
    predicate, and otherwise the smallest index whose element passes. *)
Theorem findIndex_first_match a predicate predicateContext :
  (findIndex a predicate predicateContext = (-1)%Z ∧
   ∀ j y, a !! j = Some y →
     truthy (predicate predicateContext y j a) = false) ∨
  (∃ i x, findIndex a predicate predicateContext = Z.of_nat i ∧
     a !! i = Some x ∧
     truthy (predicate predicateContext x i a) = true ∧
     ∀ j y, j < i → a !! j = Some y →
       truthy (predicate predicateContext y j a) = false).
Proof.
  apply (findIndex_loop_spec a predicate predicateContext a [] eq_refl).
  intros j y Hj. simpl in Hj. lia.
Qed.

Lemma find_loop_findIndex_loop a predicate predicateContext :
  ∀ n i,
    find_loop n a predicate predicateContext i
    = array_get_Z a (findIndex_loop n a predicate predicateContext i).
Proof.
  induction n as [|n IH]; intros i; simpl; [done|].
  destruct (truthy _); [|apply IH].
  unfold array_get_Z. rewrite (proj2 (Z.ltb_ge _ _)) by lia.
  by rewrite Nat2Z.id.
Qed.

(** X4.  [find(a, p)] is [a[findIndex(a, p)]]: the element at the index
    that [findIndex] answers, and [undefined] when that index is [-1]. *)
Theorem find_is_element_at_findIndex a predicate predicateContext :
  find a predicate predicateContext
  = array_get_Z a (findIndex a predicate predicateContext) ∧
  (findIndex a predicate predicateContext = (-1)%Z →
   find a predicate predicateContext = VUndefined).
Proof.
  unfold find, findIndex. rewrite find_loop_findIndex_loop.
  split; [done|]. by intros ->.
Qed.

Lemma picked_elem_of predicate predicateContext (b : bool) a :
  ∀ stretch k x,
    x ∈ Partition.picked predicate predicateContext b a k stretch ↔
    ∃ i, stretch !! i = Some x ∧
         truthy (predicate predicateContext x (k + i) a) = b.
Proof.
  induction stretch as [|y stretch IH]; intros k x.
  - split; [by intros ?%elem_of_nil|by intros (i & ? & _)].
  - rewrite picked_cons, elem_of_app, IH. split.
    + intros [Hx|(i & Hi & Ht)].
      * destruct (decide _) as [Hy|]; [|by apply elem_of_nil in Hx].
        apply list_elem_of_singleton in Hx as ->. exists 0.
        by rewrite Nat.add_0_r.
      * exists (S i). split; [done|]. by rewrite Nat.add_succ_r.
    + intros ([|i] & Hi & Ht); simpl in Hi.
      * injection Hi as ->. rewrite Nat.add_0_r in Ht. left.
        destruct (decide _); [apply list_elem_of_here|done].
      * right. exists i. split; [done|]. by rewrite Nat.add_succ_r in Ht.
Qed.

Lemma picked_sublist predicate predicateContext (b : bool) a :
  ∀ stretch k,
    Partition.picked predicate predicateContext b a k stretch
    `sublist_of` stretch.
Proof.
  induction stretch as [|y stretch IH]; intros k; [done|].
  rewrite picked_cons. destruct (decide _); simpl.
  - by apply sublist_skip.
  - by apply sublist_cons.
Qed.

Lemma filter_loop_spec a predicate (this : value) :
  ∀ suf pre result, a = pre ++ suf →
    filter_loop (length suf) a predicate this (length pre) result
    = result ++ Partition.picked predicate this true a (length pre) suf.
Proof.
  induction suf as [|y suf IH]; intros pre result Ha; simpl.
  - by rewrite app_nil_r.
  - assert (Hy : array_get a (length pre) = y)
      by (subst a; apply array_get_middle).
    rewrite Hy. specialize (IH (pre ++ [y])).
    rewrite length_app in IH. simpl in IH. rewrite Nat.add_1_r in IH.
    rewrite IH by (by rewrite <- app_assoc). rewrite picked_cons.
    destruct (truthy (predicate this y (length pre) a)).
    + destruct (decide (true = true)); [|done]. by rewrite <- app_assoc.
    + by destruct (decide (false = true)).
Qed.

Lemma filter_selected a predicate (predicateContext : option value) :
  filter a predicate predicateContext
  = Partition.selected true a predicate (default VUndefined predicateContext).
Proof. exact (filter_loop_spec a predicate _ a [] [] eq_refl). Qed.

(** X5.  [filter] returns, in the order of the input and as often as
    they occur there, exactly the elements [a[i]] at the indices [i] for
    which the predicate, called with the element, the index and the
    input, answers a truthy value; so its result is a subsequence of the
    input and holds a value exactly when the input has it at such an
    index. *)
Theorem filter_keeps_matching a predicate (predicateContext : option value) :
  filter a predicate predicateContext
  = (base.filter
       (λ ie, truthy (predicate (default VUndefined predicateContext)
                        ie.2 ie.1 a) = true)
       (Partition.entries_from 0 a)).*2 ∧
  filter a predicate predicateContext `sublist_of` a ∧
  ∀ x, x ∈ filter a predicate predicateContext ↔
       ∃ i, a !! i = Some x ∧
            truthy (predicate (default VUndefined predicateContext) x i a)
            = true.
Proof.
  rewrite filter_selected. unfold Partition.selected.
  split; [done|]. split.
  - apply picked_sublist.
  - intros x. by rewrite picked_elem_of.
Qed.

Lemma picked_negated predicate predicateContext a :
  ∀ stretch k,
    Partition.picked
      (λ this el i arr, VBool (negb (truthy (predicate this el i arr))))
      predicateContext true a k stretch
    = Partition.picked predicate predicateContext false a k stretch.
Proof.
  induction stretch as [|y stretch IH]; intros k; [done|].
  rewrite !picked_cons, IH. simpl.
  destruct (truthy (predicate predicateContext y k a)); simpl.
  - destruct (decide (false = true)); [done|].
    by destruct (decide (true = false)).
  - destruct (decide (true = true)); [|done].
    by destruct (decide (false = false)).
Qed.

(** X6.  The two lists of [partition(a, p, ctx)] are [filter(a, p, ctx)]
    and the [filter] of [a] by the negated predicate. *)
Theorem partition_is_two_filters a predicate predicateContext :
  Partition.partition a predicate predicateContext
  = (filter a predicate (Some predicateContext),
     filter a
       (λ this el i arr, VBool (negb (truthy (predicate this el i arr))))
       (Some predicateContext)).
Proof.
  rewrite !filter_selected. unfold Partition.selected. simpl.
  rewrite picked_negated.
  exact (partition_loop_spec predicate predicateContext a [] ([], [])).
Qed.

Lemma lookup_entries_from (l : list value) :
  ∀ k i, Partition.entries_from k l !! i = (λ x, (k + i, x)) <$> l !! i.
Proof.
  induction l as [|y l IH]; intros k i; [done|].
  destruct i as [|i]; simpl.
  - by rewrite Nat.add_0_r.
  - by rewrite IH, Nat.add_succ_r.
Qed.

Lemma map_loop_spec a (iteratee : Partition.callback) (this : value) :
  ∀ suf pre result, a = pre ++ suf → length result = length pre →
    map_loop (length suf) a iteratee this (length pre)
      (result ++ replicate (length suf) VUndefined)
    = result ++ ((λ ie, iteratee this ie.2 ie.1 a)
                 <$> Partition.entries_from (length pre) suf).
Proof.
  induction suf as [|y suf IH]; intros pre result Ha Hlen; [done|].
  simpl.
  assert (Hy : array_get a (length pre) = y)
    by (subst a; apply array_get_middle).
  rewrite Hy. unfold array_set.
  destruct (decide _) as [_|Hn].
  2:{ exfalso. apply Hn. rewrite length_app. simpl. lia. }
  rewrite <- Hlen. rewrite <- (Nat.add_0_r (length result)) at 2.
  rewrite insert_app_r. simpl. rewrite Hlen.
  specialize (IH (pre ++ [y]) (result ++ [iteratee this y (length pre) a])).
  rewrite !length_app in IH. simpl in IH. rewrite !Nat.add_1_r in IH.
  rewrite <- !app_assoc in IH. simpl in IH.
  apply IH; [done|lia].
Qed.

(** X7.  [map] returns an array as long as its input whose element at
    each index is the iteratee's answer for the input's element at that
    index, the index and the input; no index is skipped. *)
Theorem map_elementwise a (iteratee : Partition.callback)
    (iterateeContext : option value) :
  length (map a iteratee iterateeContext) = length a ∧
  ∀ i, map a iteratee iterateeContext !! i
       = (λ x, iteratee (default VUndefined iterateeContext) x i a)
         <$> a !! i.
Proof.
  assert (E : map a iteratee iterateeContext
              = (λ ie, iteratee (default VUndefined iterateeContext)
                         ie.2 ie.1 a)
                <$> Partition.entries_from 0 a)
    by exact (map_loop_spec a iteratee _ a [] [] eq_refl eq_refl).
  rewrite E. split.
  - rewrite length_fmap.
    assert (H : ∀ (l : list value) k,
              length (Partition.entries_from k l) = length l)
      by (induction l; intros; simpl; auto).
    apply H.
  - intros i. rewrite list_lookup_fmap, lookup_entries_from.
    by destruct (a !! i).
Qed.

(** *** [isIn], [uniques], [intersection] *)

Lemma to_int32_small (n : Z) :
  (- 2 ^ 31 ≤ n < 2 ^ 31)%Z → to_int32 n = n.
Proof. intros Hn. unfold to_int32. rewrite Z.mod_small; lia. Qed.

Lemma array_get_Z_nat a (k : nat) : array_get_Z a (Z.of_nat k) = array_get a k.
Proof.
  unfold array_get_Z. rewrite (proj2 (Z.ltb_ge _ _)) by lia.
  by rewrite Nat2Z.id.
Qed.

Lemma isIn_loop_spec (isSVZ : value → value → bool) a v :
  ∀ n k, k + n ≤ length a →
    isIn_loop isSVZ n a v (Z.of_nat k) = true ↔
    ∃ i x, k ≤ i < k + n ∧ a !! i = Some x ∧ isSVZ v x = true.
Proof.
  induction n as [|n IH]; intros k Hk; simpl.
  - split; [done|]. intros (i & x & Hi & _). lia.
  - rewrite array_get_Z_nat.
    destruct (lookup_lt_is_Some_2 a k ltac:(lia)) as [y Hy].
    rewrite (array_get_lookup _ _ _ Hy).
    destruct (isSVZ v y) eqn:Hv.
    + split; [|done]. intros _. exists k, y. split; [lia|done].
    + replace (Z.of_nat k + 1)%Z with (Z.of_nat (S k)) by lia.
      rewrite IH by lia. split.
      * intros (i & x & Hi & Hx & Hs). exists i, x. split; [lia|done].
      * intros (i & x & Hi & Hx & Hs). exists i, x. split; [|done].
        destruct (decide (i = k)) as [->|]; [|lia].
        rewrite Hy in Hx. injection Hx as <-. congruence.
Qed.

(** X8.  [isIn(a, v, fromIndex)] with [fromIndex] left out or a
    non-negative integer below 2^31 answers [true] exactly when some
    element of [a] at an index from [fromIndex] on is the same as [v] for
    [isSVZ]; a [fromIndex] at or past the length gives [false]. *)
Theorem isIn_from_index (isSVZ : value → value → bool) a v
    (fromIndex : option Z) (from : nat) :
  fromIndex = None ∧ from = 0 ∨
  fromIndex = Some (Z.of_nat from) ∧ (Z.of_nat from < 2 ^ 31)%Z →
  (isIn isSVZ a v fromIndex = true ↔
   ∃ i x, from ≤ i ∧ a !! i = Some x ∧ isSVZ v x = true) ∧
  (length a ≤ from → isIn isSVZ a v fromIndex = false).
Proof.
  intros Hfrom.
  assert (E : isIn isSVZ a v fromIndex
              = isIn_loop isSVZ (length a - from) a v (Z.of_nat from)).
  { unfold isIn. destruct Hfrom as [[-> ->]|[-> Hlt]].
    - simpl. by rewrite Z.sub_0_r, Nat2Z.id, Nat.sub_0_r.
    - rewrite to_int32_small by lia. f_equal. lia. }
  rewrite E. split.
  - destruct (decide (from ≤ length a)) as [Hle|Hgt].
    + rewrite isIn_loop_spec by lia. split.
      * intros (i & x & Hi & Hx). exists i, x. split; [lia|done].
      * intros (i & x & Hi & Hx & Hs). exists i, x. split; [|done].
        apply lookup_lt_Some in Hx. lia.
    + replace (length a - from) with 0 by lia. simpl. split; [done|].
      intros (i & x & Hi & Hx & _). apply lookup_lt_Some in Hx. lia.
  - intros Hge. by replace (length a - from) with 0 by lia.
Qed.

Lemma isIn_from_index_witness :
  (isIn strict_equals [VNum 0; VNum 1; VNum 2; VNum 3] (VNum 2) (Some 3%Z)
   = true ↔
   ∃ i x, 3 ≤ i ∧ [VNum 0; VNum 1; VNum 2; VNum 3] !! i = Some x ∧
          strict_equals (VNum 2) x = true) ∧
  (length [VNum 0; VNum 1; VNum 2; VNum 3] ≤ 3 →
   isIn strict_equals [VNum 0; VNum 1; VNum 2; VNum 3] (VNum 2) (Some 3%Z)
   = false).
Proof.
  apply (isIn_from_index strict_equals [VNum 0; VNum 1; VNum 2; VNum 3]
           (VNum 2) (Some 3%Z) 3).
  right. split; [reflexivity|]. vm_compute. reflexivity.
Defined.

Lemma isIn_loop_below_zero (isSVZ : value → value → bool) a v :
  ∀ (k : nat) n,
    isIn_loop isSVZ (S k + n) a v (- Z.of_nat (S k))
    = isSVZ v VUndefined || isIn_loop isSVZ n a v 0.
Proof.
  induction k as [|k IH]; intros n.
  - simpl. unfold array_get_Z. simpl. by destruct (isSVZ v VUndefined).
  - change (S (S k) + n) with (S (S k + n)).
    cbn [isIn_loop]. unfold array_get_Z at 1.
    rewrite (proj2 (Z.ltb_lt _ _)) by lia.
    replace (- Z.of_nat (S (S k)) + 1)%Z with (- Z.of_nat (S k))%Z by lia.
    rewrite IH. by destruct (isSVZ v VUndefined).
Qed.

(** X9.  A negative [fromIndex] is not an offset from the end: the scan
    starts below index [0], where every read gives [undefined], and then
    covers the whole array.  So the answer is that of the call without
    [fromIndex], except that [undefined] is always found. *)
Theorem isIn_negative_fromIndex (isSVZ : value → value → bool) a v (n : Z) :
  (- 2 ^ 31 ≤ n < 0)%Z →
  isIn isSVZ a v (Some n) = isSVZ v VUndefined || isIn isSVZ a v None.
Proof.
  intros Hn. unfold isIn. rewrite to_int32_small by lia.
  rewrite Z.sub_0_r, Nat2Z.id.
  replace (Z.to_nat (Z.of_nat (length a) - n))
    with (S (Z.to_nat (- n - 1)) + length a) by lia.
  replace n with (- Z.of_nat (S (Z.to_nat (- n - 1))))%Z at 2 by lia.
  apply isIn_loop_below_zero.
Qed.

Lemma isIn_negative_fromIndex_witness :
  isIn strict_equals [VNum 1; VNum 2] VUndefined (Some (-1)%Z)
  = strict_equals VUndefined VUndefined
    || isIn strict_equals [VNum 1; VNum 2] VUndefined None.
Proof.
  apply (isIn_negative_fromIndex strict_equals [VNum 1; VNum 2] VUndefined
           (-1)%Z).
  lia.
Defined.

Section same_value_zero.

(** On the values of the model, which have one zero and no [NaN], the
    "SameValueZero" comparison is equality. *)
Variable isSVZ : value → value → bool.
Hypothesis isSVZ_eq : ∀ x y, isSVZ x y = true ↔ x = y.

Lemma isIn_elem_of a v : isIn isSVZ a v None = true ↔ v ∈ a.
Proof.
  unfold isIn. rewrite Z.sub_0_r, Nat2Z.id.
  rewrite (isIn_loop_spec isSVZ a v (length a) 0) by lia.
  rewrite list_elem_of_lookup. split.
  - intros (i & x & _ & Hx & ->%isSVZ_eq). by exists i.
  - intros (i & Hi). exists i, v. pose proof (lookup_lt_Some _ _ _ Hi).
    split; [lia|]. split; [done|]. by apply isSVZ_eq.
Qed.

Lemma isIn_not_elem_of a v : isIn isSVZ a v None = false ↔ v ∉ a.
Proof.
  rewrite <- isIn_elem_of. by destruct (isIn isSVZ a v None).
Qed.

(** The loop of [uniques] with an iteratee that looks at the element
    only: [seen] holds the keys of [result], no key twice, and every
    element met so far has its key in [seen]. *)
Lemma uniques_loop_keyed a (key : value → value) (ctx : value) :
  ∀ suf pre R, a = pre ++ suf →
    NoDup (key <$> R) → R `sublist_of` pre →
    (∀ x, x ∈ pre → key x ∈ key <$> R) →
    ∃ R', uniques_loop isSVZ (length suf) a (λ _ el _ _, key el) ctx
            (length pre) (R, key <$> R) = (R', key <$> R') ∧
          NoDup (key <$> R') ∧ R' `sublist_of` a ∧
          (∀ x, x ∈ a → key x ∈ key <$> R').
Proof.
  induction suf as [|y suf IH]; intros pre R Ha Hnd Hsub Hall.
  - exists R. subst a. by rewrite app_nil_r.
  - simpl.
    assert (Hy : array_get a (length pre) = y)
      by (subst a; apply array_get_middle).
    rewrite Hy. specialize (IH (pre ++ [y])).
    rewrite length_app in IH. simpl in IH. rewrite Nat.add_1_r in IH.
    destruct (isIn isSVZ (key <$> R) (key y) None) eqn:Hin; simpl.
    + apply isIn_elem_of in Hin.
      apply IH; [by rewrite <- app_assoc|done| |].
      * by apply sublist_inserts_r.
      * intros x [Hx| ->%list_elem_of_singleton]%elem_of_app; [by apply Hall|done].
    + apply isIn_not_elem_of in Hin.
      replace ((key <$> R) ++ [key y]) with (key <$> (R ++ [y]))
        by (by rewrite fmap_app).
      apply IH; [by rewrite <- app_assoc| | |].
      * rewrite fmap_app. apply NoDup_app. split; [done|].
        split; [|apply NoDup_singleton].
        by intros x Hx ->%list_elem_of_singleton.
      * by apply sublist_app.
      * intros x [Hx| ->%list_elem_of_singleton]%elem_of_app;
          rewrite fmap_app, elem_of_app; [left; by apply Hall|right].
        apply list_elem_of_here.
Qed.

(** X10.  With an iteratee that computes a key from the element alone,
    [uniques] returns elements of the input in their order, no two with
    the same key, and every element of the input has its key among
    them. *)
Theorem uniques_distinct_keys a (key : value → value) (ctx : value) :
  uniques isSVZ a (Some (λ _ el _ _, key el)) ctx `sublist_of` a ∧
  NoDup (key <$> uniques isSVZ a (Some (λ _ el _ _, key el)) ctx) ∧
  (∀ x, x ∈ a →
     ∃ y, y ∈ uniques isSVZ a (Some (λ _ el _ _, key el)) ctx ∧
          key y = key x).
Proof.
  destruct (uniques_loop_keyed a key ctx a [] [] eq_refl)
    as (R' & E & Hnd & Hsub & Hall).
  { constructor. } { done. } { by intros x ?%elem_of_nil. }
  unfold uniques. simpl in E |- *. rewrite E. simpl.
  split; [done|]. split; [done|].
  intros x Hx. apply Hall in Hx. apply list_elem_of_fmap in Hx as (y & ? & ?).
  by exists y.
Qed.

(** X11.  Without an iteratee [uniques] returns a subsequence of the
    input that holds every element of the input and none twice. *)
Theorem uniques_distinct_elements a (ctx : value) :
  uniques isSVZ a None ctx `sublist_of` a ∧
  NoDup (uniques isSVZ a None ctx) ∧
  (∀ x, x ∈ uniques isSVZ a None ctx ↔ x ∈ a).
Proof.
  destruct (uniques_loop_keyed a (λ v, v) ctx a [] [] eq_refl)
    as (R' & E & Hnd & Hsub & Hall).
  { constructor. } { done. } { by intros x ?%elem_of_nil. }
  unfold uniques, identity. simpl in E |- *. rewrite E. simpl.
  rewrite list_fmap_id in Hnd.
  split; [done|]. split; [done|]. intros x. split.
  - intros Hx. by eapply elem_of_sublist.
  - intros Hx. apply Hall in Hx. by rewrite list_fmap_id in Hx.
Qed.

Lemma uniques_default_facts a (ctx : value) :
  NoDup (uniques isSVZ a None ctx) ∧
  ∀ x, x ∈ uniques isSVZ a None ctx ↔ x ∈ a.
Proof.
  destruct (uniques_loop_keyed a (λ v, v) ctx a [] [] eq_refl)
    as (R' & E & Hnd & Hsub & Hall).
  { constructor. } { done. } { by intros x ?%elem_of_nil. }
  unfold uniques, identity. simpl in E |- *. rewrite E. simpl.
  rewrite list_fmap_id in Hnd. split; [done|]. intros x. split.
  - intros Hx. by eapply elem_of_sublist.
  - intros Hx. apply Hall in Hx. by rewrite list_fmap_id in Hx.
Qed.

Lemma uniques_loop_NoDup a (ctx : value) :
  ∀ suf pre, a = pre ++ suf → NoDup a →
    uniques_loop isSVZ (length suf) a identity ctx (length pre) (pre, pre)
    = (a, a).
Proof.
  induction suf as [|y suf IH]; intros pre Ha Hnd.
  - subst a. by rewrite app_nil_r.
  - simpl.
    assert (Hy : array_get a (length pre) = y)
      by (subst a; apply array_get_middle).
    rewrite Hy. unfold identity at 1 2.
    assert (Hin : isIn isSVZ pre y None = false).
    { apply isIn_not_elem_of. subst a. apply NoDup_app in Hnd as (_ & Hd & _).
      intros Hp. apply (Hd y Hp). apply list_elem_of_here. }
    rewrite Hin. simpl. specialize (IH (pre ++ [y])).
    rewrite length_app in IH. simpl in IH. rewrite Nat.add_1_r in IH.
    apply IH; [by rewrite <- app_assoc|done].
Qed.

(** X12.  [uniques] without an iteratee is idempotent, and returns an
    input that has no element twice as it is. *)
Theorem uniques_idempotent a (ctx : value) :
  uniques isSVZ (uniques isSVZ a None ctx) None ctx = uniques isSVZ a None ctx ∧
  (NoDup a → uniques isSVZ a None ctx = a).
Proof.
  assert (Hfix : ∀ l, NoDup l → uniques isSVZ l None ctx = l).
  { intros l Hl.
    exact (f_equal fst (uniques_loop_NoDup l ctx l [] eq_refl Hl)). }
  split; [|apply Hfix]. apply Hfix.
  by destruct (uniques_default_facts a ctx) as (Hnd & _).
Qed.

Lemma NoDup_list_filter (f : value → bool) (l : list value) :
  NoDup l → NoDup (List.filter f l).
Proof.
  induction 1 as [|x l Hx Hnd IH]; simpl; [constructor|].
  destruct (f x); [|done]. constructor; [|done].
  rewrite list_elem_of_In, filter_In, <- list_elem_of_In. tauto.
Qed.

(** X13.  [intersection(first, ...rest)] holds exactly the values that
    are in [first] and in every array of [rest], none of them twice. *)
Theorem intersection_common_elements (first : list value)
    (rest : list (list value)) :
  NoDup (intersection isSVZ first rest) ∧
  ∀ x, x ∈ intersection isSVZ first rest ↔
       x ∈ first ∧ ∀ r, r ∈ rest → x ∈ r.
Proof.
  destruct (uniques_default_facts first VUndefined) as (Hnd & Hel).
  unfold intersection. split; [by apply NoDup_list_filter|].
  intros x. rewrite list_elem_of_In, filter_In, <- list_elem_of_In, Hel.
  rewrite forallb_forall. unfold contains. split.
  - intros [Hx Hall]. split; [done|]. intros r Hr.
    apply isIn_elem_of, Hall. by apply list_elem_of_In.
  - intros [Hx Hall]. split; [done|]. intros r Hr.
    apply isIn_elem_of, Hall. by apply list_elem_of_In.
Qed.

End same_value_zero.

Lemma strict_equals_eq (x y : value) : strict_equals x y = true ↔ x = y.
Proof. unfold strict_equals. apply bool_decide_eq_true. Qed.

Lemma uniques_distinct_keys_witness :
  uniques strict_equals [VNum 1; VNum 2; VNum 1]
    (Some (λ _ el _ _, VBool (truthy el))) VUndefined
  `sublist_of` [VNum 1; VNum 2; VNum 1] ∧
  NoDup ((λ el, VBool (truthy el))
         <$> uniques strict_equals [VNum 1; VNum 2; VNum 1]
               (Some (λ _ el _ _, VBool (truthy el))) VUndefined) ∧
  (∀ x, x ∈ [VNum 1; VNum 2; VNum 1] →
     ∃ y, y ∈ uniques strict_equals [VNum 1; VNum 2; VNum 1]
                (Some (λ _ el _ _, VBool (truthy el))) VUndefined ∧
          VBool (truthy y) = VBool (truthy x)).
Proof.
  apply (uniques_distinct_keys strict_equals strict_equals_eq
           [VNum 1; VNum 2; VNum 1] (λ el, VBool (truthy el)) VUndefined).
Defined.

Lemma uniques_distinct_elements_witness :
  uniques strict_equals [VNum 1; VNum 2; VNum 1] None VUndefined
  `sublist_of` [VNum 1; VNum 2; VNum 1] ∧
  NoDup (uniques strict_equals [VNum 1; VNum 2; VNum 1] None VUndefined) ∧
  (∀ x, x ∈ uniques strict_equals [VNum 1; VNum 2; VNum 1] None VUndefined
        ↔ x ∈ [VNum 1; VNum 2; VNum 1]).
Proof.
  apply (uniques_distinct_elements strict_equals strict_equals_eq
           [VNum 1; VNum 2; VNum 1] VUndefined).
Defined.

Lemma uniques_idempotent_witness :
  uniques strict_equals
    (uniques strict_equals [VNum 1; VNum 2; VNum 1] None VUndefined)
    None VUndefined
  = uniques strict_equals [VNum 1; VNum 2; VNum 1] None VUndefined ∧
  (NoDup [VNum 1; VNum 2; VNum 1] →
   uniques strict_equals [VNum 1; VNum 2; VNum 1] None VUndefined
   = [VNum 1; VNum 2; VNum 1]).
Proof.
  apply (uniques_idempotent strict_equals strict_equals_eq
           [VNum 1; VNum 2; VNum 1] VUndefined).
Defined.

Lemma intersection_common_elements_witness :
  NoDup (intersection strict_equals [VNum 1; VNum 2; VNum 1]
           [[VNum 2; VNum 1]; [VNum 1]]) ∧
  ∀ x, x ∈ intersection strict_equals [VNum 1; VNum 2; VNum 1]
             [[VNum 2; VNum 1]; [VNum 1]] ↔
       x ∈ [VNum 1; VNum 2; VNum 1] ∧
       ∀ r, r ∈ [[VNum 2; VNum 1]; [VNum 1]] → x ∈ r.
Proof.
  apply (intersection_common_elements strict_equals strict_equals_eq
           [VNum 1; VNum 2; VNum 1] [[VNum 2; VNum 1]; [VNum 1]]).
Defined.

(** *** [compose] *)

Lemma compose_foldr_singleton (gs : list (value → list value → value))
    (this : value) (args : list value) :
  gs ≠ [] →
  foldr (λ fn args, [fn this args]) args gs = [compose gs this args].
Proof. destruct gs as [|g gs]; [done|]. intros _. done. Qed.

(** X14.  [compose] applies its functions from the last to the first:
    [compose(f, g)(...args)] is [f(g(...args))]; without functions it
    returns its first argument; and a composition used as one of the
    functions can be replaced by the functions it was built from. *)
Theorem compose_right_to_left (this : value) (args : list value) :
  (∀ f g, compose [f; g] this args = f this [g this args]) ∧
  compose [] this args = array_get args 0 ∧
  (∀ fs gs hs, gs ≠ [] →
     compose (fs ++ compose gs :: hs) this args
     = compose (fs ++ gs ++ hs) this args).
Proof.
  split; [done|]. split; [done|]. intros fs gs hs Hgs. unfold compose at 1 3.
  rewrite !foldr_app. simpl.
  by rewrite (compose_foldr_singleton gs this _ Hgs).
Qed.

Lemma compose_right_to_left_witness :
  compose ([] ++ compose [λ _ a, array_get a 0; λ _ a, VNum 1] :: [])
    VUndefined [VNum 5]
  = compose ([] ++ [λ _ a, array_get a 0; λ _ a, VNum 1] ++ [])
      VUndefined [VNum 5].
Proof.
  apply (proj2 (proj2 (compose_right_to_left VUndefined [VNum 5]))).
  discriminate.
Defined.

(** *** [_getInsertionIndex] and [insert] *)

Section insertion.

Variables (less_than : value → value → bool) (array : list value)
  (element : value).

Hypothesis array_not_empty : length array ≠ 0.
Hypothesis array_small : (Z.of_nat (length array) < 2 ^ 30)%Z.

(** One round of the search on an interval [start, end_) of indices. *)
Lemma _getInsertionIndex_round (fuel : nat)
    (comparer : option (value → value → value))
    (reader : option (value → value)) (start end_ : option Z) :
  let cmp := default (ascending less_than) comparer in
  let rd := default (λ v, v) reader in
  let s := number_or start 0 in
  let e := number_or end_ (Z.of_nat (length array)) in
  let pivot := ((s + e) / 2)%Z in
  let compared := cmp (rd element) (rd (array_get_Z array pivot)) in
  (0 ≤ s < e)%Z → (e ≤ Z.of_nat (length array))%Z →
  _getInsertionIndex (S fuel) less_than array element comparer reader
    start end_
  = if (e - s <=? 1)%Z then
      Ok (Some (if strict_equals compared (VNum (-1)) then pivot
                else (pivot + 1)%Z))
    else if strict_equals compared (VNum (-1)) then
      _getInsertionIndex fuel less_than array element (Some cmp) (Some rd)
        (Some s) (Some pivot)
    else if strict_equals compared (VNum 0) then Ok (Some (pivot + 1)%Z)
    else if strict_equals compared (VNum 1) then
      _getInsertionIndex fuel less_than array element (Some cmp) (Some rd)
        (Some pivot) (Some e)
    else Ok None.
Proof.
  intros cmp rd s e pivot compared Hs He. cbn [_getInsertionIndex].
  rewrite bool_decide_eq_false_2 by done.
  fold s e cmp rd. rewrite to_int32_small by lia.
  rewrite Z.shiftr_div_pow2 by lia. change (2 ^ 1)%Z with 2%Z.
  done.
Qed.

Lemma number_or_nonzero (n d : Z) : n ≠ 0%Z → number_or (Some n) d = n.
Proof. intros Hn. unfold number_or. by rewrite (proj2 (Z.eqb_neq _ _)). Qed.

Lemma number_or_start (n : Z) : number_or (Some n) 0 = n.
Proof. unfold number_or. destruct (Z.eqb_spec n 0); congruence. Qed.

(** Whatever the comparer answers, the search returns, and an index it
    returns lies between [0] and the length. *)
Lemma _getInsertionIndex_in_bounds (fuel : nat) :
  ∀ comparer reader start end_,
    let s := number_or start 0 in
    let e := number_or end_ (Z.of_nat (length array)) in
    (0 ≤ s < e)%Z → (e ≤ Z.of_nat (length array))%Z →
    (e - s ≤ Z.of_nat fuel)%Z →
    ∃ r, _getInsertionIndex fuel less_than array element comparer reader
           start end_ = Ok r ∧
         ∀ i, r = Some i → (0 ≤ i ≤ Z.of_nat (length array))%Z.
Proof.
  induction fuel as [|fuel IH]; intros comparer reader start end_ s e Hs He Hf;
    [lia|].
  rewrite _getInsertionIndex_round by done. fold s e.
  assert (Hp : (s ≤ (s + e) / 2 < e)%Z).
  { split; [apply Z.div_le_lower_bound; lia|].
    apply Z.div_lt_upper_bound; lia. }
  destruct (Z.leb_spec (e - s) 1) as [Hbase|Hrec].
  { eexists. split; [done|]. intros i [= <-]. destruct (strict_equals _ _); lia. }
  assert (Hp' : (s + 1 ≤ (s + e) / 2)%Z).
  { apply Z.div_le_lower_bound; lia. }
  destruct (strict_equals _ (VNum (-1))).
  { apply IH; rewrite ?number_or_start, ?number_or_nonzero by lia; lia. }
  destruct (strict_equals _ (VNum 0)).
  { eexists. split; [done|]. intros i [= <-]. lia. }
  destruct (strict_equals _ (VNum 1)).
  { apply IH; rewrite ?number_or_start, ?number_or_nonzero by lia; lia. }
  eexists. split; [done|]. by intros i.
Qed.

End insertion.

Section sorted_insertion.

Variables (less_than : value → value → bool) (array : list value)
  (element : value) (reader : option (value → value)) (key : value → Z).

(** On numbers [a < b] is the order of the integers. *)
Hypothesis less_than_numbers :
  ∀ x y, less_than (VNum x) (VNum y) = (x <? y)%Z.
(** The reader gives a number for the element and for what is in the
    array. *)
Hypothesis reader_key :
  ∀ x, x ∈ element :: array → default (λ v, v) reader x = VNum (key x).
Hypothesis array_not_empty : length array ≠ 0.
Hypothesis array_small : (Z.of_nat (length array) < 2 ^ 30)%Z.
Hypothesis array_sorted : sorted_by key array.

Lemma array_get_Z_elem (j : Z) :
  (0 ≤ j < Z.of_nat (length array))%Z →
  array !! Z.to_nat j = Some (array_get_Z array j).
Proof.
  intros Hj. unfold array_get_Z, array_get.
  rewrite (proj2 (Z.ltb_ge _ _)) by lia.
  by destruct (lookup_lt_is_Some_2 array (Z.to_nat j) ltac:(lia)) as [x ->].
Qed.

Lemma sorted_Z (i j : Z) :
  (0 ≤ i ≤ j)%Z → (j < Z.of_nat (length array))%Z →
  (key (array_get_Z array i) ≤ key (array_get_Z array j))%Z.
Proof.
  intros Hi Hj.
  apply (array_sorted (Z.to_nat i) (Z.to_nat j)); [lia| |];
    apply array_get_Z_elem; lia.
Qed.

Lemma compared_ascending (j : Z) :
  (0 ≤ j < Z.of_nat (length array))%Z →
  ascending less_than (default (λ v, v) reader element)
    (default (λ v, v) reader (array_get_Z array j))
  = if (key element <? key (array_get_Z array j))%Z then VNum (-1)
    else if (key (array_get_Z array j) <? key element)%Z then VNum 1
    else VNum 0.
Proof.
  intros Hj. unfold ascending.
  rewrite (reader_key element) by apply list_elem_of_here.
  rewrite (reader_key (array_get_Z array j)).
  2:{ apply list_elem_of_further. eapply list_elem_of_lookup_2.
      by apply array_get_Z_elem. }
  by rewrite !less_than_numbers.
Qed.

(** The search on a sorted array: what lies before the index it returns
    is not above the element, what lies from it on is not below. *)
Lemma _getInsertionIndex_sorted (fuel : nat) :
  ∀ comparer rd start end_,
    default (ascending less_than) comparer = ascending less_than →
    default (λ v, v) rd = default (λ v, v) reader →
    let s := number_or start 0 in
    let e := number_or end_ (Z.of_nat (length array)) in
    (0 ≤ s < e)%Z → (e ≤ Z.of_nat (length array))%Z →
    (e - s ≤ Z.of_nat fuel)%Z →
    (s = 0%Z ∨ (key (array_get_Z array s) < key element)%Z) →
    (e = Z.of_nat (length array) ∨
     (key element < key (array_get_Z array e))%Z) →
    ∃ i, _getInsertionIndex fuel less_than array element comparer rd
           start end_ = Ok (Some i) ∧
         (0 ≤ i ≤ Z.of_nat (length array))%Z ∧
         (∀ j, (0 ≤ j < i)%Z →
            (key (array_get_Z array j) ≤ key element)%Z) ∧
         (∀ j, (i ≤ j < Z.of_nat (length array))%Z →
            (key element ≤ key (array_get_Z array j))%Z).
Proof.
  induction fuel as [|fuel IH];
    intros comparer rd start end_ Hcmp Hrd s e Hs He Hf Hlo Hhi; [lia|].
  rewrite (_getInsertionIndex_round less_than array element array_not_empty
             array_small) by done.
  fold s e. rewrite Hcmp, Hrd.
  assert (Hp : (s ≤ (s + e) / 2 < e)%Z).
  { split; [apply Z.div_le_lower_bound; lia|].
    apply Z.div_lt_upper_bound; lia. }
  rewrite compared_ascending by lia.
  set (p := ((s + e) / 2)%Z) in *.
  pose proof (sorted_Z) as Hsorted.
  destruct (Z.leb_spec (e - s) 1) as [Hbase|Hrec].
  - assert (p = s) by lia. subst p.
    destruct (Z.ltb_spec (key element) (key (array_get_Z array ((s + e) / 2))))
      as [Hlt|Hge].
    + exists ((s + e) / 2)%Z. split; [done|]. split; [lia|]. split.
      * intros j Hj. destruct Hlo as [Hz|Hlo]; [lia|]. rewrite H in Hlt. lia.
      * intros j Hj. specialize (Hsorted ((s + e) / 2)%Z j). lia.
    + exists ((s + e) / 2 + 1)%Z.
      assert (Hne : strict_equals
                (if (key (array_get_Z array ((s + e) / 2)) <? key element)%Z
                 then VNum 1 else VNum 0) (VNum (-1)) = false)
        by (by destruct (_ <? _)%Z).
      rewrite Hne. split; [done|]. split; [lia|]. split.
      * intros j Hj. specialize (Hsorted j ((s + e) / 2)%Z). lia.
      * intros j Hj. destruct Hhi as [Hz|Hhi]; [lia|].
        specialize (Hsorted e j). lia.
  - assert (Hp' : (s + 1 ≤ p)%Z) by (apply Z.div_le_lower_bound; lia).
    destruct (Z.ltb_spec (key element) (key (array_get_Z array p)))
      as [Hlt|Hge].
    + change (strict_equals (VNum (-1)) (VNum (-1))) with true. cbv iota.
      apply IH; rewrite ?number_or_start, ?number_or_nonzero by lia;
        try done; try lia; by right.
    + destruct (Z.ltb_spec (key (array_get_Z array p)) (key element))
        as [Hgt|Hle].
      * change (strict_equals (VNum 1) (VNum (-1))) with false.
        change (strict_equals (VNum 1) (VNum 0)) with false.
        change (strict_equals (VNum 1) (VNum 1)) with true. cbv iota.
        apply IH; rewrite ?number_or_start, ?number_or_nonzero by lia;
          try done; try lia; by right.
      * change (strict_equals (VNum 0) (VNum (-1))) with false.
        change (strict_equals (VNum 0) (VNum 0)) with true. cbv iota.
        exists (p + 1)%Z. split; [done|]. split; [lia|]. split.
        -- intros j Hj. specialize (Hsorted j p). lia.
        -- intros j Hj. specialize (Hsorted p j). lia.
Qed.

End sorted_insertion.

Lemma inserted_lookup (a : list value) (i p : nat) (el x : value) :
  i ≤ length a →
  (take i a ++ el :: drop i a) !! p = Some x →
  p < i ∧ a !! p = Some x ∨ p = i ∧ x = el ∨ i < p ∧ a !! (p - 1) = Some x.
Proof.
  intros Hi Hx. apply lookup_app_Some in Hx as [Hx|[Hp Hx]].
  - apply lookup_take_Some in Hx as [Hx Hp]. by left.
  - rewrite length_take, Nat.min_l in Hp, Hx by done.
    destruct (p - i) as [|k] eqn:Hk; simpl in Hx.
    + right; left. split; [lia|congruence].
    + right; right. split; [lia|]. rewrite lookup_drop in Hx.
      by replace (p - 1) with (i + k) by lia.
Qed.

Lemma sorted_by_inserted (key : value → Z) (a : list value) (i : nat)
    (el : value) :
  sorted_by key a → i ≤ length a →
  (∀ j x, j < i → a !! j = Some x → (key x ≤ key el)%Z) →
  (∀ j x, i ≤ j → a !! j = Some x → (key el ≤ key x)%Z) →
  sorted_by key (take i a ++ el :: drop i a).
Proof.
  intros Hs Hi Hbefore Hafter p q x y Hpq Hx Hy.
  apply (inserted_lookup a i p el x Hi) in Hx.
  apply (inserted_lookup a i q el y Hi) in Hy.
  destruct Hx as [[Hp Hx]|[[-> ->]|[Hp Hx]]],
           Hy as [[Hq Hy]|[[-> ->]|[Hq Hy]]]; try lia.
  - apply (Hs p q); [lia|done..].
  - by apply (Hbefore p).
  - apply (Hs p (q - 1)); [lia|done..].
  - apply (Hafter (q - 1)); [lia|done].
  - apply (Hs (p - 1) (q - 1)); [lia|done..].
Qed.

Lemma splice_insert_at (a : list value) (i : Z) (element : value) :
  (0 ≤ i ≤ Z.of_nat (length a))%Z →
  splice_insert a (Some i) element
  = take (Z.to_nat i) a ++ element :: drop (Z.to_nat i) a.
Proof.
  intros Hi. unfold splice_insert, relative_index. simpl.
  rewrite (proj2 (Z.ltb_ge _ _)) by lia. by rewrite Z.min_l by lia.
Qed.

(** X15.  Whatever the comparer and the reader answer, [insert] on an
    array of fewer than 2^30 elements returns: its result is the array
    with the element put in at some position, the other elements in
    their places and order. *)
Theorem insert_adds_one_element (less_than : value → value → bool)
    (array : list value) (element : value)
    (comparer : option (value → value → value))
    (reader : option (value → value)) :
  (Z.of_nat (length array) < 2 ^ 30)%Z →
  ∃ i, i ≤ length array ∧
       insert less_than array element comparer reader
       = Ok (take i array ++ element :: drop i array).
Proof.
  intros Hsmall. unfold insert.
  destruct (decide (length array = 0)) as [Hz|Hnz].
  { exists 0. split; [lia|]. apply length_zero_iff_nil in Hz. by subst. }
  destruct (_getInsertionIndex_in_bounds less_than array element Hnz Hsmall
              (S (length array)) comparer reader None None)
    as (r & E & Hr); [simpl; lia..|].
  rewrite E, bind_Ok. destruct r as [i|].
  - specialize (Hr i eq_refl). exists (Z.to_nat i). split; [lia|].
    by rewrite splice_insert_at.
  - exists 0. split; [lia|]. unfold splice_insert, relative_index. simpl.
    by rewrite Z.min_l by lia.
Qed.

(** X16.  [insert] with the default comparer keeps a sorted array
    sorted: on an array of fewer than 2^30 elements, when the reader
    gives an integer for the element and for every element of the array
    (never [NaN]), [<] on these is the order of the integers, and the
    array is in non-decreasing order of these integers, so is the
    result, which is the array with the element put in. *)
Theorem insert_keeps_sorted (less_than : value → value → bool)
    (array : list value) (element : value)
    (reader : option (value → value)) (key : value → Z) :
  (∀ x y, less_than (VNum x) (VNum y) = (x <? y)%Z) →
  (∀ x, x ∈ element :: array → default (λ v, v) reader x = VNum (key x)) →
  (Z.of_nat (length array) < 2 ^ 30)%Z →
  sorted_by key array →
  ∃ result i,
    insert less_than array element None reader = Ok result ∧
    i ≤ length array ∧
    result = take i array ++ element :: drop i array ∧
    sorted_by key result.
Proof.
  intros Hlt Hkey Hsmall Hsorted. unfold insert.
  destruct (decide (length array = 0)) as [Hz|Hnz].
  { apply length_zero_iff_nil in Hz. subst array. exists [element], 0.
    split; [done|]. split; [done|]. split; [done|].
    intros i j x y _ Hx%list_elem_of_lookup_2 Hy%list_elem_of_lookup_2.
    apply list_elem_of_singleton in Hx, Hy. subst. lia. }
  destruct (_getInsertionIndex_sorted less_than array element reader key
              Hlt Hkey Hnz Hsmall Hsorted (S (length array)) None reader
              None None eq_refl eq_refl)
    as (i & E & Hi & Hbefore & Hafter); [simpl; lia..|by left|by left|].
  rewrite E, bind_Ok, splice_insert_at by done.
  exists (take (Z.to_nat i) array ++ element :: drop (Z.to_nat i) array),
    (Z.to_nat i).
  split; [done|]. split; [lia|]. split; [done|].
  apply sorted_by_inserted; [done|lia| |].
  - intros j x Hj Hx. specialize (Hbefore (Z.of_nat j) ltac:(lia)).
    unfold array_get_Z in Hbefore.
    rewrite (proj2 (Z.ltb_ge _ _)), Nat2Z.id in Hbefore by lia.
    by rewrite (array_get_lookup _ _ _ Hx) in Hbefore.
  - intros j x Hj Hx. pose proof (lookup_lt_Some _ _ _ Hx) as Hjl.
    specialize (Hafter (Z.of_nat j) ltac:(lia)).
    unfold array_get_Z in Hafter.
    rewrite (proj2 (Z.ltb_ge _ _)), Nat2Z.id in Hafter by lia.
    by rewrite (array_get_lookup _ _ _ Hx) in Hafter.
Qed.

Lemma insert_keeps_sorted_witness :
  ∃ result i,
    insert
      (λ u w, match u, w with
              | VNum x, VNum y => (x <? y)%Z
              | _, _ => false
              end)
      [VNum 1; VNum 3; VNum 5] (VNum 4) None None = Ok result ∧
    i ≤ length [VNum 1; VNum 3; VNum 5] ∧
    result = take i [VNum 1; VNum 3; VNum 5]
             ++ VNum 4 :: drop i [VNum 1; VNum 3; VNum 5] ∧
    sorted_by (λ v, match v with VNum n => n | _ => 0%Z end) result.
Proof.
  apply (insert_keeps_sorted
           (λ u w, match u, w with
                   | VNum x, VNum y => (x <? y)%Z
                   | _, _ => false
                   end)
           [VNum 1; VNum 3; VNum 5] (VNum 4) None
           (λ v, match v with VNum n => n | _ => 0%Z end)).
  - reflexivity.
  - intros x Hx. simpl.
    repeat (apply elem_of_cons in Hx as [->|Hx]; [reflexivity|]).
    by apply elem_of_nil in Hx.
  - vm_compute. reflexivity.
  - intros i j x y Hij Hx Hy.
    destruct i as [|[|[|i]]]; simpl in Hx; try done;
      destruct j as [|[|[|j]]]; simpl in Hy; try done;
      injection Hx as <-; injection Hy as <-; lia.
Defined.

Lemma insert_adds_one_element_witness :
  ∃ i, i ≤ length [VNum 1; VNum 2; VNum 4] ∧
       insert (λ _ _, false) [VNum 1; VNum 2; VNum 4] (VNum 3)
         (Some (λ _ _, VNum 7)) None
       = Ok (take i [VNum 1; VNum 2; VNum 4]
             ++ VNum 3 :: drop i [VNum 1; VNum 2; VNum 4]).
Proof.
  apply (insert_adds_one_element (λ _ _, false) [VNum 1; VNum 2; VNum 4]
           (VNum 3) (Some (λ _ _, VNum 7)) None).
  vm_compute. reflexivity.
Defined.

End arrays_facts.

(** ** The object builders *)

Section objects_facts.
Import Objects.

Implicit Types (result m : gmap string value) (key k : string)
  (keys : list string).

Lemma set_property_plain result key (v : value) :
  key ≠ "__proto__"%string →
  set_property result key v = Some (<[key := v]> result).
Proof. intros Hk. unfold set_property. by destruct (decide _). Qed.

Lemma option_bind_Some {A B : Type} (a : A) (f : A → option B) :
  (Some a ≫= f) = f a.
Proof. done. Qed.

(** The read [i < valuesLen ? values[i] : void 0] is the read
    [values[i]]: past the end both give [undefined]. *)
Lemma guarded_read (values : list value) (i : nat) :
  (if bool_decide (i < length values) then array_get values i
   else VUndefined) = array_get values i.
Proof.
  case_bool_decide as Hi; [done|]. unfold array_get.
  by rewrite lookup_ge_None_2 by lia.
Qed.

Lemma fromPairs_from_spec (pairsList : list (string * value)) :
  ∀ result, "__proto__"%string ∉ pairsList.*1 →
    ∃ m, fromPairs_from pairsList result = Some m ∧
         (∀ k, k ∉ pairsList.*1 → m !! k = result !! k) ∧
         (∀ pre k (v : value) post,
            pairsList = pre ++ (k, v) :: post → k ∉ post.*1 →
            m !! k = Some v).
Proof.
  induction pairsList as [|[key v0] rest IH]; intros result Hp.
  - exists result. split; [done|]. split; [done|].
    intros pre k v post E. by destruct pre.
  - simpl in Hp. apply not_elem_of_cons in Hp as [Hkey Hrest].
    destruct (IH (<[key := v0]> result) Hrest) as (m & E & Hout & Hlast).
    exists m. simpl. rewrite set_property_plain, option_bind_Some by done.
    split; [done|]. split.
    + intros k [Hk Hkr]%not_elem_of_cons.
      by rewrite (Hout k Hkr), lookup_insert_ne.
    + intros pre k v post Epre Hk. destruct pre as [|p pre].
      * simpl in Epre. injection Epre as E1 E2 E3. subst.
        by rewrite (Hout k Hk), lookup_insert_eq.
      * simpl in Epre. injection Epre as E1 E2. subst.
        by apply (Hlast pre k v post).
Qed.

(** X17.  [fromPairs] builds the object whose own properties are the
    keys of the pairs, each with the value of the last pair that has the
    key. *)
Theorem fromPairs_last_pair_wins (pairsList : list (string * value)) :
  "__proto__"%string ∉ pairsList.*1 →
  ∃ m, fromPairs pairsList = Some m ∧
       (∀ k, k ∉ pairsList.*1 → m !! k = None) ∧
       (∀ pre k (v : value) post,
          pairsList = pre ++ (k, v) :: post → k ∉ post.*1 →
          m !! k = Some v).
Proof.
  intros Hp. destruct (fromPairs_from_spec pairsList ∅ Hp)
    as (m & E & Hout & Hlast).
  exists m. split; [done|]. split; [|done].
  intros k Hk. by rewrite (Hout k Hk).
Qed.

Lemma fromPairs_last_pair_wins_witness :
  ∃ m, fromPairs [("a"%string, VNum 1); ("b"%string, VNum 2);
                  ("a"%string, VNum 3)] = Some m ∧
       (∀ k, k ∉ [("a"%string, VNum 1); ("b"%string, VNum 2);
                  ("a"%string, VNum 3)].*1 → m !! k = None) ∧
       (∀ pre k (v : value) post,
          [("a"%string, VNum 1); ("b"%string, VNum 2); ("a"%string, VNum 3)]
          = pre ++ (k, v) :: post → k ∉ post.*1 → m !! k = Some v).
Proof.
  apply (fromPairs_last_pair_wins
           [("a"%string, VNum 1); ("b"%string, VNum 2); ("a"%string, VNum 3)]).
  vm_compute. intros H.
  repeat (apply elem_of_cons in H as [H|H]; [discriminate H|]).
  by apply elem_of_nil in H.
Defined.

Lemma make_from_fromPairs_from keys (values : list value) :
  ∀ i result,
    make_from keys values i result
    = fromPairs_from (imap (λ j k, (k, array_get values (i + j))) keys)
        result.
Proof.
  induction keys as [|key keys IH]; intros i result; [done|].
  simpl. rewrite guarded_read, Nat.add_0_r.
  destruct (set_property result key (array_get values i)) as [r'|]; [|done].
  rewrite !option_bind_Some, IH. f_equal. apply imap_ext.
  intros j k _. simpl. by rewrite Nat.add_succ_r.
Qed.

(** X18.  [make(keys, values)] is [fromPairs] of the keys, each paired
    with the value at the same index, and with [undefined] where
    [values] is too short; values beyond the keys are not looked at.
    With as many values as keys it is [fromPairs] of the zipped lists. *)
Theorem make_is_fromPairs keys (values : list value) :
  make keys values
  = fromPairs (imap (λ j k, (k, array_get values j)) keys) ∧
  (length keys = length values →
   make keys values = fromPairs (zip keys values)).
Proof.
  assert (E : make keys values
              = fromPairs (imap (λ j k, (k, array_get values j)) keys))
    by exact (make_from_fromPairs_from keys values 0 ∅).
  split; [done|]. intros Hlen. rewrite E. f_equal.
  clear E. revert values Hlen.
  induction keys as [|key keys IH]; intros [|v values] Hlen; try done.
  simpl. f_equal. rewrite <- (IH values) by (simpl in Hlen; lia).
  apply imap_ext. intros j k _. done.
Qed.

Lemma make_is_fromPairs_witness :
  make ["a"%string; "b"%string] [VNum 1; VNum 2]
  = fromPairs (zip ["a"%string; "b"%string] [VNum 1; VNum 2]).
Proof.
  apply (proj2 (make_is_fromPairs ["a"%string; "b"%string]
                  [VNum 1; VNum 2])).
  reflexivity.
Defined.

Lemma imap_keys keys :
  ∀ f : nat → value, (imap (λ j k, (k, f j)) keys).*1 = keys.
Proof.
  induction keys as [|key keys IH]; intros f; [done|]. simpl. f_equal.
  apply (IH (λ j, f (S j))).
Qed.

(** X19.  [make(keys, values)] builds the object whose own properties
    are the keys, each with the value at the index of the last
    occurrence of the key; that value is [undefined] when [values] has
    nothing at that index. *)
Theorem make_last_key_wins keys (values : list value) :
  "__proto__"%string ∉ keys →
  ∃ m, make keys values = Some m ∧
       (∀ k, k ∉ keys → m !! k = None) ∧
       (∀ pre k post, keys = pre ++ k :: post → k ∉ post →
          m !! k = Some (array_get values (length pre))) ∧
       (∀ pre k post, keys = pre ++ k :: post → k ∉ post →
          length values ≤ length pre → m !! k = Some VUndefined).
Proof.
  intros Hp. unfold make. rewrite make_from_fromPairs_from.
  destruct (fromPairs_from_spec
              (imap (λ j k, (k, array_get values (0 + j))) keys) ∅)
    as (m & E & Hout & Hlast).
  { by rewrite (imap_keys keys (λ j, array_get values (0 + j))). }
  rewrite (imap_keys keys (λ j, array_get values (0 + j))) in Hout.
  assert (Hval : ∀ pre k post, keys = pre ++ k :: post → k ∉ post →
            m !! k = Some (array_get values (length pre))).
  { intros pre k post -> Hk.
    apply (Hlast (imap (λ j k, (k, array_get values (0 + j))) pre) k _
             (imap (λ j k, (k, array_get values (0 + (S (length pre) + j))))
                post)).
    - rewrite imap_app. simpl. rewrite Nat.add_0_r. f_equal. f_equal.
      apply imap_ext. intros j k' _. simpl. f_equal. f_equal. lia.
    - by rewrite (imap_keys post
                    (λ j, array_get values (0 + (S (length pre) + j)))). }
  exists m. split; [done|]. split; [|split; [done|]].
  - intros k Hk. by rewrite (Hout k Hk).
  - intros pre k post Hkeys Hk Hshort.
    rewrite (Hval pre k post Hkeys Hk). unfold array_get.
    by rewrite lookup_ge_None_2.
Qed.

Lemma make_last_key_wins_witness :
  ∃ m, make ["a"%string; "b"%string; "c"%string] [VNum 1; VNum 2] = Some m ∧
       (∀ k, k ∉ ["a"%string; "b"%string; "c"%string] → m !! k = None) ∧
       (∀ pre k post, ["a"%string; "b"%string; "c"%string]
                      = pre ++ k :: post → k ∉ post →
          m !! k = Some (array_get [VNum 1; VNum 2] (length pre))) ∧
       (∀ pre k post, ["a"%string; "b"%string; "c"%string]
                      = pre ++ k :: post → k ∉ post →
          length [VNum 1; VNum 2] ≤ length pre → m !! k = Some VUndefined).
Proof.
  apply (make_last_key_wins ["a"%string; "b"%string; "c"%string]
           [VNum 1; VNum 2]).
  intros H.
  repeat (apply elem_of_cons in H as [H|H]; [discriminate H|]).
  by apply elem_of_nil in H.
Defined.

Lemma pick_from_spec (src : source) (whitelist : list string) :
  ∀ result, "__proto__"%string ∉ whitelist →
    ∃ m, pick_from src whitelist result = Some m ∧
         (∀ k, k ∈ whitelist → src_in src k = true →
            m !! k = Some (src_get src k)) ∧
         (∀ k, k ∉ whitelist ∨ src_in src k = false → m !! k = result !! k).
Proof.
  induction whitelist as [|key rest IH]; intros result Hp.
  - exists result. split; [done|]. split; [by intros k ?%elem_of_nil|done].
  - apply not_elem_of_cons in Hp as [Hkey Hrest]. simpl.
    destruct (src_in src key) eqn:Hin.
    + rewrite set_property_plain, option_bind_Some by done.
      destruct (IH (<[key := src_get src key]> result) Hrest)
        as (m & E & Hpicked & Hother).
      exists m. split; [done|]. split.
      * intros k [->|Hk]%elem_of_cons Hk_in; [|by apply Hpicked].
        destruct (decide (key ∈ rest)) as [Hr|Hr]; [by apply Hpicked|].
        rewrite Hother by (by left). by rewrite lookup_insert_eq.
      * intros k Hk. rewrite Hother.
        -- apply lookup_insert_ne. intros ->. rewrite not_elem_of_cons in Hk.
           destruct Hk as [[? _]|?]; congruence.
        -- rewrite not_elem_of_cons in Hk. tauto.
    + destruct (IH result Hrest) as (m & E & Hpicked & Hother).
      exists m. split; [done|]. split.
      * intros k [->|Hk]%elem_of_cons Hk_in; [congruence|by apply Hpicked].
      * intros k Hk. apply Hother. rewrite not_elem_of_cons in Hk.
        destruct (decide (k = key)) as [->|]; [by right|]. tauto.
Qed.

(** X20.  For a [whitelist] that does not name ["__proto__"],
    [pick(source, whitelist)] builds the object whose own properties are
    the keys of [whitelist] for which [key in source] holds, each with
    the value [source[key]]; nothing else gets in. *)
Theorem pick_whitelisted_present (src : source) (whitelist : list string) :
  "__proto__"%string ∉ whitelist →
  ∃ m, pick src whitelist = Some m ∧
       (∀ k, k ∈ whitelist → src_in src k = true →
          m !! k = Some (src_get src k)) ∧
       (∀ k, k ∉ whitelist ∨ src_in src k = false → m !! k = None).
Proof.
  intros Hp. destruct (pick_from_spec src whitelist ∅ Hp)
    as (m & E & Hpicked & Hother).
  exists m. split; [done|]. split; [done|].
  intros k Hk. by rewrite (Hother k Hk).
Qed.

Lemma pick_whitelisted_present_witness :
  ∃ m, pick (Source (λ k, bool_decide (k = "name"%string))
               (λ _, VStr "john") ["name"%string])
         ["name"%string; "email"%string] = Some m ∧
       (∀ k, k ∈ ["name"%string; "email"%string] →
          bool_decide (k = "name"%string) = true →
          m !! k = Some (VStr "john")) ∧
       (∀ k, k ∉ ["name"%string; "email"%string] ∨
             bool_decide (k = "name"%string) = false → m !! k = None).
Proof.
  apply (pick_whitelisted_present
           (Source (λ k, bool_decide (k = "name"%string))
              (λ _, VStr "john") ["name"%string])
           ["name"%string; "email"%string]).
  intros H.
  repeat (apply elem_of_cons in H as [H|H]; [discriminate H|]).
  by apply elem_of_nil in H.
Defined.

Lemma skip_from_spec (src : source) (blacklist : list value) keys :
  ∀ result, "__proto__"%string ∉ keys →
    ∃ m, skip_from src keys blacklist result = Some m ∧
         (∀ k, k ∈ keys → VStr k ∉ blacklist →
            m !! k = Some (src_get src k)) ∧
         (∀ k, k ∉ keys ∨ VStr k ∈ blacklist → m !! k = result !! k).
Proof.
  induction keys as [|key rest IH]; intros result Hp.
  - exists result. split; [done|]. split; [by intros k ?%elem_of_nil|done].
  - apply not_elem_of_cons in Hp as [Hkey Hrest]. simpl.
    case_bool_decide as Hidx; rewrite indexOf_minus_one in Hidx.
    + rewrite set_property_plain, option_bind_Some by done.
      destruct (IH (<[key := src_get src key]> result) Hrest)
        as (m & E & Hkept & Hother).
      exists m. split; [done|]. split.
      * intros k [->|Hk]%elem_of_cons Hb; [|by apply Hkept].
        destruct (decide (key ∈ rest)) as [Hr|Hr]; [by apply Hkept|].
        rewrite Hother by (by left). by rewrite lookup_insert_eq.
      * intros k Hk. rewrite Hother.
        -- apply lookup_insert_ne. intros ->. rewrite not_elem_of_cons in Hk.
           destruct Hk as [[? _]|?]; [congruence|done].
        -- rewrite not_elem_of_cons in Hk. tauto.
    + destruct (IH result Hrest) as (m & E & Hkept & Hother).
      assert (Hblack : VStr key ∈ blacklist).
      { destruct (decide (VStr key ∈ blacklist)); tauto. }
      exists m. split; [done|]. split.
      * intros k [->|Hk]%elem_of_cons Hb; [done|by apply Hkept].
      * intros k Hk. apply Hother. rewrite not_elem_of_cons in Hk.
        destruct (decide (k = key)) as [->|]; [by right|]. tauto.
Qed.

(** X21.  For a source in which [for (key in source)] does not go
    through a key ["__proto__"], [skip(source, blacklist)] builds the
    object whose own properties are the keys that the loop goes through
    and that are not in [blacklist], each with the value
    [source[key]]. *)
Theorem skip_not_blacklisted (src : source) (blacklist : list value) :
  "__proto__"%string ∉ src_for_in src →
  ∃ m, skip src blacklist = Some m ∧
       (∀ k, k ∈ src_for_in src → VStr k ∉ blacklist →
          m !! k = Some (src_get src k)) ∧
       (∀ k, k ∉ src_for_in src ∨ VStr k ∈ blacklist → m !! k = None).
Proof.
  intros Hp. destruct (skip_from_spec src blacklist (src_for_in src) ∅ Hp)
    as (m & E & Hkept & Hother).
  exists m. split; [done|]. split; [done|].
  intros k Hk. by rewrite (Hother k Hk).
Qed.

Lemma skip_not_blacklisted_witness :
  ∃ m, skip (Source (λ _, true) (λ _, VNum 30)
               ["name"%string; "age"%string])
         [VStr "name"; VStr "email"] = Some m ∧
       (∀ k, k ∈ ["name"%string; "age"%string] →
          VStr k ∉ [VStr "name"; VStr "email"] → m !! k = Some (VNum 30)) ∧
       (∀ k, k ∉ ["name"%string; "age"%string] ∨
             VStr k ∈ [VStr "name"; VStr "email"] → m !! k = None).
Proof.
  apply (skip_not_blacklisted
           (Source (λ _, true) (λ _, VNum 30) ["name"%string; "age"%string])
           [VStr "name"; VStr "email"]).
  simpl. intros H.
  repeat (apply elem_of_cons in H as [H|H]; [discriminate H|]).
  by apply elem_of_nil in H.
Defined.

(** X22.  When ["__proto__"] is neither in the list of keys nor among
    the keys that [for (key in source)] goes through, and [key in source]
    holds for each of the latter, [pick] and [skip] with the same list of
    keys split the enumerable properties of the source between them:
    each key the loop goes through is an own property, with the source's
    value, of exactly one of the two results: of [pick]'s when it is in
    the list, of [skip]'s when it is not. *)
Theorem pick_skip_complement (src : source) keys :
  "__proto__"%string ∉ keys → "__proto__"%string ∉ src_for_in src →
  (∀ k, k ∈ src_for_in src → src_in src k = true) →
  ∃ picked skipped,
    pick src keys = Some picked ∧
    skip src (VStr <$> keys) = Some skipped ∧
    ∀ k, k ∈ src_for_in src →
      (picked !! k = Some (src_get src k) ∧ skipped !! k = None ∧ k ∈ keys) ∨
      (picked !! k = None ∧ skipped !! k = Some (src_get src k) ∧ k ∉ keys).
Proof.
  intros Hk Hs Hin.
  destruct (pick_from_spec src keys ∅ Hk)
    as (picked & Ep & Hp1 & Hp2).
  destruct (skip_from_spec src (VStr <$> keys) (src_for_in src) ∅ Hs)
    as (skipped & Es & Hs1 & Hs2).
  exists picked, skipped. split; [done|]. split; [done|].
  intros k Hkin.
  assert (Hinj : VStr k ∈ VStr <$> keys ↔ k ∈ keys).
  { rewrite list_elem_of_fmap. split; [by intros (y & [= ->] & ?)|].
    intros ?. by exists k. }
  destruct (decide (k ∈ keys)) as [Hkk|Hkk].
  - left. split; [by apply Hp1, Hin|]. split; [|done].
    apply Hs2. right. by apply Hinj.
  - right. split; [apply Hp2; by left|]. split; [|done].
    apply Hs1; [done|]. by rewrite Hinj.
Qed.

Lemma pick_skip_complement_witness :
  ∃ picked skipped,
    pick (Source (λ _, true) (λ _, VNum 30) ["name"%string; "age"%string])
      ["name"%string] = Some picked ∧
    skip (Source (λ _, true) (λ _, VNum 30) ["name"%string; "age"%string])
      (VStr <$> ["name"%string]) = Some skipped ∧
    ∀ k, k ∈ ["name"%string; "age"%string] →
      (picked !! k = Some (VNum 30) ∧ skipped !! k = None ∧
       k ∈ ["name"%string]) ∨
      (picked !! k = None ∧ skipped !! k = Some (VNum 30) ∧
       k ∉ ["name"%string]).
Proof.
  apply (pick_skip_complement
           (Source (λ _, true) (λ _, VNum 30) ["name"%string; "age"%string])
           ["name"%string]).
  - intros H.
    repeat (apply elem_of_cons in H as [H|H]; [discriminate H|]).
    by apply elem_of_nil in H.
  - simpl. intros H.
    repeat (apply elem_of_cons in H as [H|H]; [discriminate H|]).
    by apply elem_of_nil in H.
  - reflexivity.
Defined.

Lemma validate_fold {A : Type} (obj : value)
    (checkers : list (value → list A)) :
  ∀ errors,
    fold_left
      (λ errors checker,
         let result := checker obj in
         if bool_decide (length result ≠ 0) then errors ++ [result]
         else errors)
      checkers errors
    = errors ++ filter (λ r, r ≠ []) ((λ c, c obj) <$> checkers).
Proof.
  induction checkers as [|c checkers IH]; intros errors; simpl.
  - by rewrite app_nil_r.
  - rewrite IH, filter_cons.
    destruct (decide (c obj ≠ [])) as [Hne|He].
    + rewrite bool_decide_eq_true_2, <- app_assoc; [done|].
      by destruct (c obj).
    + rewrite bool_decide_eq_false_2; [done|].
      destruct (c obj); [simpl; lia|]. by exfalso; apply He.
Qed.

(** X23.  [validate(obj, checkers)] returns, in the order of the
    checkers, the results that are not empty; it returns no error exactly
    when every checker returns an empty result. *)
Theorem validate_collects_failures {A : Type} (obj : value)
    (checkers : list (value → list A)) :
  validate obj checkers
  = filter (λ r, r ≠ []) ((λ c, c obj) <$> checkers) ∧
  (validate obj checkers = [] ↔ ∀ c, c ∈ checkers → c obj = []).
Proof.
  assert (E : validate obj checkers
              = filter (λ r, r ≠ []) ((λ c, c obj) <$> checkers))
    by exact (validate_fold obj checkers []).
  split; [done|]. rewrite E. clear E.
  induction checkers as [|c checkers IH]; simpl.
  - split; [by intros _ c ?%elem_of_nil|done].
  - rewrite filter_cons. destruct (decide (c obj ≠ [])) as [Hc|Hc].
    + split; [done|]. intros H. exfalso. apply Hc, H, list_elem_of_here.
    + rewrite IH. split.
      * intros H c' [->|Hc']%elem_of_cons; [|by apply H].
        by destruct (c obj) eqn:?; [|exfalso; apply Hc].
      * intros H c' Hc'. by apply H, list_elem_of_further.
Qed.

End objects_facts.

(** ** Nested arrays, grouping and tearing apart *)

Section nested_facts.
Import Nested.

Lemma item_induction (P : item → Prop) :
  (∀ v, P (Atom v)) → (∀ items, Forall P items → P (Arr items)) →
  ∀ x, P x.
Proof.
  intros Hatom Harr. fix IH 1. intros [v|items]; [apply Hatom|].
  apply Harr. induction items as [|y items IHitems]; constructor.
  - apply IH.
  - apply IHitems.
Qed.

Lemma _flatten_output (array : list item) :
  Forall (λ y, ∀ out, flatten_item y out = out ++ flatten_item y []) array →
  ∀ out, _flatten array out = out ++ _flatten array [].
Proof.
  unfold _flatten. induction 1 as [|y array Hy _ IH]; intros out; simpl.
  - by rewrite app_nil_r.
  - rewrite IH, (IH (flatten_item y [])), Hy. by rewrite <- app_assoc.
Qed.

(** What [_flatten] pushes does not depend on what [output] holds. *)
Lemma flatten_item_output (x : item) :
  ∀ out, flatten_item x out = out ++ flatten_item x [].
Proof.
  induction x as [v|items IH] using item_induction; intros out; [done|].
  exact (_flatten_output items IH out).
Qed.

Lemma flatten_app (a b : list item) :
  flatten (a ++ b) = flatten a ++ flatten b.
Proof.
  unfold flatten, _flatten. rewrite fold_left_app.
  apply (_flatten_output b). apply Forall_forall. intros y _.
  apply flatten_item_output.
Qed.

(** X24.  [flatten] of a concatenation is the concatenation of the
    [flatten]s; flattening the first level with [shallowFlatten] before
    [flatten] changes nothing; and an array that holds no array is
    returned element for element. *)
Theorem flatten_after_shallowFlatten (a b : list item) (l : list value) :
  flatten (shallowFlatten a) = flatten a ∧
  flatten (a ++ b) = flatten a ++ flatten b ∧
  flatten (Atom <$> l) = l.
Proof.
  split; [|split; [apply flatten_app|]].
  - induction a as [|x a IH]; [done|].
    change (shallowFlatten (x :: a))
      with (match x with Arr items => items | Atom v => [Atom v] end
            ++ shallowFlatten a).
    change (x :: a) with ([x] ++ a). rewrite !flatten_app, IH. f_equal.
    by destruct x.
  - induction l as [|v l IH]; [done|].
    change (Atom <$> v :: l) with ([Atom v] ++ (Atom <$> l)).
    by rewrite flatten_app, IH.
Qed.

Section grouping.

Variables (inherited : string → bool)
  (iteratee : value → value → nat → list value → string)
  (iterateeContext : value) (a : list value).

Lemma keyed_cons (key : string) (k : nat) (y : value) (stretch : list value) :
  keyed iteratee iterateeContext key a k (y :: stretch)
  = (if decide (iteratee iterateeContext y k a = key) then [y] else [])
    ++ keyed iteratee iterateeContext key a (S k) stretch.
Proof.
  unfold keyed. simpl. rewrite filter_cons. simpl. by destruct (decide _).
Qed.

Lemma group_loop_spec :
  ∀ suf pre (groups : gmap string (list value)), a = pre ++ suf →
    (∀ i x, a !! i = Some x →
       inherited (iteratee iterateeContext x i a) = false) →
    ∃ m, group_loop inherited (length suf) a iteratee iterateeContext
           (length pre) groups = Ok m ∧
         ∀ key, m !! key
           = match groups !! key with
             | Some elements =>
                 Some (elements ++ keyed iteratee iterateeContext key a
                                     (length pre) suf)
             | None =>
                 if decide (keyed iteratee iterateeContext key a
                              (length pre) suf = [])
                 then None
                 else Some (keyed iteratee iterateeContext key a
                              (length pre) suf)
             end.
Proof.
  induction suf as [|y suf IH]; intros pre groups Ha Hplain.
  - exists groups. split; [done|]. intros key. unfold keyed. simpl.
    destruct (groups !! key); [by rewrite app_nil_r|done].
  - simpl.
    assert (Hy : array_get a (length pre) = y).
    { subst a. by rewrite <- (Nat.add_0_r (length pre)), array_get_app_r. }
    assert (Hl : a !! length pre = Some y).
    { subst a. by rewrite lookup_app_r, Nat.sub_diag by lia. }
    rewrite Hy. specialize (IH (pre ++ [y])).
    rewrite length_app in IH. simpl in IH. rewrite Nat.add_1_r in IH.
    set (ky := iteratee iterateeContext y (length pre) a).
    destruct (groups !! ky) as [g|] eqn:Hg.
    + destruct (IH (<[ky := g ++ [y]]> groups)) as (m & E & Hm);
        [by rewrite <- app_assoc|done|].
      exists m. split; [done|]. intros key. rewrite Hm, keyed_cons.
      fold ky. destruct (decide (ky = key)) as [<-|Hne].
      * by rewrite lookup_insert_eq, Hg, <- app_assoc.
      * by rewrite lookup_insert_ne.
    + assert (Hky : inherited ky = false) by apply (Hplain _ _ Hl).
      rewrite Hky.
      destruct (IH (<[ky := [y]]> groups)) as (m & E & Hm);
        [by rewrite <- app_assoc|done|].
      exists m. split; [done|]. intros key. rewrite Hm, keyed_cons.
      fold ky. destruct (decide (ky = key)) as [<-|Hne].
      * rewrite lookup_insert_eq, Hg. by destruct (decide _).
      * by rewrite lookup_insert_ne.
Qed.

Lemma group_loop_throws :
  ∀ suf pre (groups : gmap string (list value)), a = pre ++ suf →
    (∀ key, is_Some (groups !! key) → inherited key = false) →
    (∃ i x, length pre ≤ i ∧ a !! i = Some x ∧
            inherited (iteratee iterateeContext x i a) = true) →
    group_loop inherited (length suf) a iteratee iterateeContext
      (length pre) groups = Fail TypeError.
Proof.
  induction suf as [|y suf IH]; intros pre groups Ha Hown (i & x & Hi & Hx & Hin).
  - apply lookup_lt_Some in Hx. subst a. rewrite app_nil_r in Hx. lia.
  - simpl.
    assert (Hy : array_get a (length pre) = y).
    { subst a. by rewrite <- (Nat.add_0_r (length pre)), array_get_app_r. }
    assert (Hl : a !! length pre = Some y).
    { subst a. by rewrite lookup_app_r, Nat.sub_diag by lia. }
    rewrite Hy. specialize (IH (pre ++ [y])).
    rewrite length_app in IH. simpl in IH. rewrite Nat.add_1_r in IH.
    set (ky := iteratee iterateeContext y (length pre) a).
    destruct (inherited ky) eqn:Hky.
    + destruct (groups !! ky) as [g|] eqn:Hg; [|done].
      rewrite (Hown ky) in Hky; [done|by eexists].
    + assert (Hnext : ∃ i x, S (length pre) ≤ i ∧ a !! i = Some x ∧
                inherited (iteratee iterateeContext x i a) = true).
      { exists i, x. split; [|done].
        destruct (decide (i = length pre)) as [->|]; [|lia].
        rewrite Hl in Hx. injection Hx as <-. fold ky in Hin. congruence. }
      destruct (groups !! ky) as [g|] eqn:Hg.
      * apply IH; [by rewrite <- app_assoc| |done].
        intros key [g' Hkey]. destruct (decide (ky = key)) as [<-|Hne]; [done|].
        rewrite lookup_insert_ne in Hkey by done. apply Hown. by eexists.
      * apply IH; [by rewrite <- app_assoc| |done].
        intros key [g' Hkey]. destruct (decide (ky = key)) as [<-|Hne]; [done|].
        rewrite lookup_insert_ne in Hkey by done. apply Hown. by eexists.
Qed.

(** X25.  When no key the iteratee computes names a property of
    [Object.prototype], [group] returns the object that has one own
    property per key that occurs, holding the elements with that key in
    their order in the input. *)
Theorem group_collects_by_key :
  (∀ i x, a !! i = Some x →
     inherited (iteratee iterateeContext x i a) = false) →
  ∃ m, group inherited a iteratee iterateeContext = Ok m ∧
       ∀ key,
         m !! key
         = if decide (keyed iteratee iterateeContext key a 0 a = [])
           then None
           else Some (keyed iteratee iterateeContext key a 0 a).
Proof.
  intros Hplain.
  destruct (group_loop_spec a [] ∅ eq_refl Hplain) as (m & E & Hm).
  exists m. split; [done|]. intros key. by rewrite Hm.
Qed.

(** X26.  When the key computed for some element names a property of
    [Object.prototype] (["toString"], ["constructor"], ...), [group]
    finds [key in result] true on the empty [result], calls [push] on
    what it inherits there, and throws a [TypeError]. *)
Theorem group_inherited_key_throws :
  (∃ i x, a !! i = Some x ∧
          inherited (iteratee iterateeContext x i a) = true) →
  group inherited a iteratee iterateeContext = Fail TypeError.
Proof.
  intros (i & x & Hx & Hin).
  apply (group_loop_throws a [] ∅ eq_refl).
  - intros key [g Hg]. by rewrite lookup_empty in Hg.
  - exists i, x. split; [simpl; lia|done].
Qed.

End grouping.

Lemma group_collects_by_key_witness :
  ∃ m, group (λ key, bool_decide (key = "toString"%string))
         [VNum 1; VNum 0; VNum 2]
         (λ _ el _ _, if truthy el then "yes" else "no")%string VUndefined
       = Ok m ∧
       ∀ key,
         m !! key
         = if decide (keyed (λ _ el _ _, if truthy el then "yes" else "no")%string
                        VUndefined key [VNum 1; VNum 0; VNum 2] 0
                        [VNum 1; VNum 0; VNum 2] = [])
           then None
           else Some (keyed (λ _ el _ _, if truthy el then "yes" else "no")%string
                        VUndefined key [VNum 1; VNum 0; VNum 2] 0
                        [VNum 1; VNum 0; VNum 2]).
Proof.
  apply (group_collects_by_key (λ key, bool_decide (key = "toString"%string))
           (λ _ el _ _, if truthy el then "yes" else "no")%string VUndefined
           [VNum 1; VNum 0; VNum 2]).
  intros i x Hx. by destruct (truthy x).
Defined.

Lemma group_inherited_key_throws_witness :
  group (λ key, bool_decide (key = "toString"%string)) [VNum 1; VNum 2]
    (λ _ _ _ _, "toString"%string) VUndefined
  = Fail TypeError.
Proof.
  apply (group_inherited_key_throws
           (λ key, bool_decide (key = "toString"%string))
           (λ _ _ _ _, "toString"%string) VUndefined [VNum 1; VNum 2]).
  exists 0, (VNum 1). split; reflexivity.
Defined.

End nested_facts.

(** ** Tearing an object apart and building it again *)

Section round_trips.
Import Objects Nested.

Variables (keys : list string) (get : string → value).

Lemma tear_keys_fold :
  ∀ (ks : list string) (done_keys : list string) (done_values : list value),
    fold_left (λ result key, (result.1 ++ [key], result.2 ++ [get key]))
      ks (done_keys, done_values)
    = (done_keys ++ ks, done_values ++ (get <$> ks)).
Proof.
  induction ks as [|key ks IH]; intros done_keys done_values; simpl.
  - by rewrite !app_nil_r.
  - by rewrite IH, <- !app_assoc.
Qed.

Lemma tear_keys_spec : tear_keys keys get = (keys, get <$> keys).
Proof. exact (tear_keys_fold keys [] []). Qed.

Lemma make_of_read_values :
  make keys (get <$> keys) = fromPairs (pairs_keys keys get).
Proof.
  unfold make. rewrite make_from_fromPairs_from. unfold fromPairs. f_equal.
  unfold pairs_keys.
  assert (H : ∀ (ks pre : list string),
            imap (λ j k, (k, array_get (get <$> pre ++ ks) (length pre + j))) ks
            = (λ key, (key, get key)) <$> ks).
  { induction ks as [|key ks IH]; intros pre; [done|].
    rewrite fmap_cons, imap_cons. f_equal.
    - f_equal. rewrite Nat.add_0_r, fmap_app, fmap_cons.
      rewrite <- (length_fmap get pre). apply array_get_middle.
    - etrans; [|apply (IH (pre ++ [key]))].
      apply imap_ext. intros j k _. simpl.
      rewrite <- app_assoc, length_app. simpl. f_equal. f_equal. lia. }
  exact (H keys []).
Qed.

Lemma pairs_keys_fst (ks : list string) : (pairs_keys ks get).*1 = ks.
Proof. unfold pairs_keys. rewrite <- list_fmap_compose. apply list_fmap_id. Qed.

Lemma fromPairs_of_read_pairs :
  "__proto__"%string ∉ keys →
  ∃ m, fromPairs (pairs_keys keys get) = Some m ∧
       ∀ k, m !! k = if decide (k ∈ keys) then Some (get k) else None.
Proof.
  intros Hp.
  pose proof (pairs_keys_fst keys) as Hfst.
  destruct (fromPairs_from_spec (pairs_keys keys get) ∅)
    as (m & E & Hout & Hlast); [by rewrite Hfst|].
  rewrite Hfst in Hout.
  exists m. split; [done|]. intros k.
  destruct (decide (k ∈ keys)) as [Hk|Hk]; [|by rewrite (Hout k Hk)].
  destruct (list_elem_of_split_r keys k Hk) as (pre & post & -> & Hpost).
  apply (Hlast (pairs_keys pre get) k (get k) (pairs_keys post get)).
  - unfold pairs_keys. by rewrite fmap_app.
  - by rewrite pairs_keys_fst.
Qed.

(** X27.  The keys and values that the function behind [tear] and
    [tearOwn] reads off an object, handed to [make], give an object with
    exactly those keys as own properties, each holding the value read. *)
Theorem tear_then_make :
  "__proto__"%string ∉ keys →
  tear_keys keys get = (keys, get <$> keys) ∧
  ∃ m, make (tear_keys keys get).1 (tear_keys keys get).2 = Some m ∧
       ∀ k, m !! k = if decide (k ∈ keys) then Some (get k) else None.
Proof.
  intros Hp. split; [apply tear_keys_spec|].
  rewrite tear_keys_spec. simpl. rewrite make_of_read_values.
  by apply fromPairs_of_read_pairs.
Qed.

(** X28.  The pairs that the function behind [pairs] and [ownPairs]
    reads off an object, handed to [fromPairs], give an object with
    exactly those keys as own properties, each holding the value read. *)
Theorem pairs_then_fromPairs :
  "__proto__"%string ∉ keys →
  length (pairs_keys keys get) = length keys ∧
  (∀ i key, keys !! i = Some key →
     pairs_keys keys get !! i = Some (key, get key)) ∧
  ∃ m, fromPairs (pairs_keys keys get) = Some m ∧
       ∀ k, m !! k = if decide (k ∈ keys) then Some (get k) else None.
Proof.
  intros Hp. split; [|split; [|by apply fromPairs_of_read_pairs]].
  - unfold pairs_keys. by rewrite length_fmap.
  - intros i key Hi. unfold pairs_keys. by rewrite list_lookup_fmap, Hi.
Qed.

End round_trips.

Lemma tear_then_make_witness :
  Nested.tear_keys ["a"%string; "b"%string] (λ k, VStr k)
  = (["a"%string; "b"%string], (λ k, VStr k) <$> ["a"%string; "b"%string]) ∧
  ∃ m, Objects.make
         (Nested.tear_keys ["a"%string; "b"%string] (λ k, VStr k)).1
         (Nested.tear_keys ["a"%string; "b"%string] (λ k, VStr k)).2
       = Some m ∧
       ∀ k, m !! k = if decide (k ∈ ["a"%string; "b"%string])
                     then Some (VStr k) else None.
Proof.
  apply (tear_then_make ["a"%string; "b"%string] (λ k, VStr k)).
  intros H.
  repeat (apply elem_of_cons in H as [H|H]; [discriminate H|]).
  by apply elem_of_nil in H.
Defined.

Lemma pairs_then_fromPairs_witness :
  length (Nested.pairs_keys ["a"%string; "b"%string] (λ k, VStr k))
  = length ["a"%string; "b"%string] ∧
  (∀ i key, ["a"%string; "b"%string] !! i = Some key →
     Nested.pairs_keys ["a"%string; "b"%string] (λ k, VStr k) !! i
     = Some (key, VStr key)) ∧
  ∃ m, Objects.fromPairs
         (Nested.pairs_keys ["a"%string; "b"%string] (λ k, VStr k))
       = Some m ∧
       ∀ k, m !! k = if decide (k ∈ ["a"%string; "b"%string])
                     then Some (VStr k) else None.
Proof.
  apply (pairs_then_fromPairs ["a"%string; "b"%string] (λ k, VStr k)).
  intros H.
  repeat (apply elem_of_cons in H as [H|H]; [discriminate H|]).
  by apply elem_of_nil in H.
Defined.
